(** * Verification of [cloud.py]: GitHub email scouting over Airtable

    A shallow embedding of [src/cloud.py].  Python [str] values are lists of
    Unicode code points, dictionaries are finite maps, and the HTTP calls are
    threaded through a state-and-exception monad whose state records every
    request attempt that left the process. *)

From Stdlib Require Import String Ascii.
From stdpp Require Import base option list gmap.

Local Open Scope N_scope.

(** ** Python strings *)

(** A Python [str] is a sequence of code points. *)
Definition str := list N.

(** A string literal of the source, as its sequence of code points. *)
Definition py (s : string) : str :=
  List.map N_of_ascii (list_ascii_of_string s).

Definition str_eqb (a b : str) : bool := bool_decide (a = b).

(** [s.startswith(p)] *)
Fixpoint startswith (s p : str) : bool :=
  match p, s with
  | [], _ => true
  | _ :: _, [] => false
  | c :: p', x :: s' => (x =? c) && startswith s' p'
  end.

(** [s.split(sep)] for a one-character separator: never the empty list. *)
Fixpoint split (sep : N) (s : str) : list str :=
  match s with
  | [] => [[]]
  | c :: s' =>
      if c =? sep then [] :: split sep s'
      else match split sep s' with
           | h :: t => (c :: h) :: t
           | [] => [[c]]
           end
  end.

(** [l[-1]] on a list of strings that is known to be non-empty. *)
Definition last_item (l : list str) : str := List.last l [].

(** [s.lstrip(chars)], [s.rstrip(chars)] and [s.strip(chars)]. *)
Fixpoint lstrip (chars : str) (s : str) : str :=
  match s with
  | c :: s' => if bool_decide (c ∈ chars) then lstrip chars s' else s
  | [] => []
  end.

Definition rstrip (chars : str) (s : str) : str :=
  rev (lstrip chars (rev s)).

Definition strip (chars : str) (s : str) : str :=
  rstrip chars (lstrip chars s).

(** ** The regular expression of [extract_email] *)

Definition in_range (lo hi c : N) : bool := (lo <=? c) && (c <=? hi).

Definition upper (c : N) : bool := in_range 65 90 c.
Definition lower (c : N) : bool := in_range 97 122 c.
Definition digit (c : N) : bool := in_range 48 57 c.
Definition letter (c : N) : bool := upper c || lower c.

Definition AT : N := 64.
Definition DOT : N := 46.
Definition PIPE : N := 124.

(** [[A-Za-z0-9._%+-]] *)
Definition local_class (c : N) : bool :=
  upper c || lower c || digit c
  || (c =? 46) || (c =? 95) || (c =? 37) || (c =? 43) || (c =? 45).

(** [[A-Za-z0-9.-]] *)
Definition domain_class (c : N) : bool :=
  upper c || lower c || digit c || (c =? 46) || (c =? 45).

(** [[A-Z|a-z]]: inside a character class the bar is a literal. *)
Definition tld_class (c : N) : bool :=
  upper c || (c =? 124) || lower c.

(** ** HTTP messages and the data of the two services *)

Inductive method := GET | PATCH | POST.

(** One element of the ['records'] list of an Airtable request body: the
    dictionary [{'id': ..., 'fields': {...}}], the id being absent on
    creation. *)
Record out_record := {
  out_id : option str;
  out_fields : gmap str str
}.

(** A request as handed to [requests]: the method, the URL, the headers and
    the [json=] argument, which here is always [{'records': records}]. *)
Record request := {
  meth : method;
  url : str;
  headers : gmap str str;
  json_records : option (list out_record)
}.

(** A record of the source table as Airtable lists it. *)
Record record := {
  id : str;
  fields : option (gmap str str)
}.

(** What the code reads of a decoded JSON body: [['rate']['remaining']] of the
    rate-limit answer, the ['email'] key of a user object (absent, [null] or a
    string) and the ['records'] key of a listing. *)
Record json_object := {
  rate_remaining : option Z;
  email : option (option str);
  records : option (list record)
}.

(** A response: [status_code], [text], the result of [json()], which is
    [None] when the body does not decode, and whether the answer carries a
    [Retry-After] header, which the retrying session looks at.  No other
    header is part of a response: in particular an answer carries no
    [Location], so none is a redirect that [requests] would follow by
    itself. *)
Record response := {
  status_code : Z;
  text : str;
  json : option json_object;
  retry_after : bool
}.

(** What one attempt on the wire comes to. *)
Inductive outcome :=
  | Refused                    (* no connection, or no answer *)
  | Answer (r : response).

(** The statuses on which [urllib3] honours a [Retry-After] header
    ([Retry.RETRY_AFTER_STATUS_CODES]). *)
Definition retry_after_status_codes : list Z := [413; 429; 503]%Z.

(** An answer that asks to be tried again later: one of these statuses,
    with the header. *)
Definition waits_retry_after (r : response) : bool :=
  retry_after r && bool_decide (status_code r ∈ retry_after_status_codes).

Inductive exn :=
  | ConnectionError | RetryError | JSONDecodeError | KeyError | IndexError
  | ZeroDivisionError.

Inductive result (A : Type) :=
  | Ok (a : A)
  | Raise (e : exn).
Arguments Ok {A} a.
Arguments Raise {A} e.

(** ** The key rotator's object and the state of a run *)

Record GitHubApiHandler := {
  api_keys : list str;
  current_key_index : nat;
  request_count : nat;
  max_requests_per_key : nat
}.

(** [GitHubApiHandler(api_keys)] *)
Definition new_handler (keys : list str) : GitHubApiHandler :=
  {| api_keys := keys; current_key_index := 0; request_count := 0;
     max_requests_per_key := 3650 |}.

(** The handler object shared by the calls, and every request attempt sent so
    far, oldest first. *)
Record state := {
  handler : GitHubApiHandler;
  sent : list request
}.

(** Computations that read and change the state and may raise. *)
Definition M (A : Type) : Type := state -> result A * state.

Definition ret {A} (a : A) : M A := fun st => (Ok a, st).

Definition raise {A} (e : exn) : M A := fun st => (Raise e, st).

Definition bind {A B} (c : M A) (k : A -> M B) : M B :=
  fun st =>
    match c st with
    | (Ok a, st') => k a st'
    | (Raise e, st') => (Raise e, st')
    end.

Notation "'let!' x ':=' c 'in' k" := (bind c (fun x => k))
  (at level 10, x name, c at level 100, k at level 200).
Notation "'run' c 'then' k" := (bind c (fun _ => k))
  (at level 10, c at level 100, k at level 200).

(** [Retry(total=..., read=..., connect=..., backoff_factor=...,
    status_forcelist=...)].  The pauses that [backoff_factor] sets between
    attempts are not part of the model. *)
Record Retry := {
  total : nat;
  read : nat;
  connect : nat;
  status_forcelist : list Z
}.

(** Truth value of an optional string: [None] and [''] are false. *)
Definition truthy (v : option str) : bool :=
  match v with
  | Some (_ :: _) => true
  | _ => false
  end.


(** Truth value of a string. *)
Definition nonempty (s : str) : bool :=
  match s with _ :: _ => true | [] => false end.

(** ** Sample data for concrete runs *)

(** A Unicode table in which no code point above ASCII is alphanumeric. *)
Definition ascii_isalnum : N -> bool := fun _ => false.

(** A network on which everything answers 200: the rate limit reports 3
    calls left, every profile carries the public address [x@y.com], and any
    other address serves a README with a contact line. *)
Definition octocat_net (log : list request) (req : request) : outcome :=
  if bool_decide (url req = py "https://api.github.com/rate_limit") then
    Answer {| status_code := 200; text := [];
              json := Some {| rate_remaining := Some 3%Z; email := None;
                              records := None |};
      retry_after := false |}
  else if startswith (url req) (py "https://api.github.com/users/") then
    Answer {| status_code := 200; text := [];
              json := Some {| rate_remaining := None;
                              email := Some (Some (py "x@y.com"));
                              records := None |};
      retry_after := false |}
  else
    Answer {| status_code := 200; text := py "Contact: <jane@example.com>";
              json := Some {| rate_remaining := None; email := None;
                              records := Some [] |};
      retry_after := false |}.

(** A network whose first answer is a 502 and which answers 200 from then
    on, with the same README. *)
Definition flaky_net (log : list request) (req : request) : outcome :=
  match log with
  | [] => Answer {| status_code := 502; text := []; json := None;
                 retry_after := false |}
  | _ :: _ =>
      Answer {| status_code := 200; text := py "Contact: <jane@example.com>";
                json := Some {| rate_remaining := None; email := None;
                                records := Some [] |};
      retry_after := false |}
  end.

(** A handler with two keys, before any request. *)
Definition fresh_state : state :=
  {| handler := new_handler [py "key1"; py "key2"]; sent := [] |}.

(** A source record waiting to be scouted. *)
Definition octocat_record : record :=
  {| id := py "rec1";
     fields := Some (<[ py "Name" := py "The Octocat" ]>
                     (<[ py "GitHub" := py "https://github.com/octocat" ]>
                      {[ py "Status" := py "Run" ]})) |}.

(** A source record that has been scouted already. *)
Definition done_record : record :=
  {| id := py "rec2";
     fields := Some (<[ py "GitHub" := py "octocat" ]>
                     {[ py "Status" := py "Done" ]}) |}.

(** A network that never answers. *)
Definition dead_net (log : list request) (req : request) : outcome := Refused.

(** A network on which the rate limit reports 4999 calls left and every other
    address answers 404. *)
Definition healthy_net (log : list request) (req : request) : outcome :=
  if bool_decide (url req = py "https://api.github.com/rate_limit") then
    Answer {| status_code := 200; text := [];
              json := Some {| rate_remaining := Some 4999%Z; email := None;
                              records := None |};
      retry_after := false |}
  else Answer {| status_code := 404; text := []; json := None;
                 retry_after := false |}.


(** A network on which every address answers 404. *)
Definition missing_net (log : list request) (req : request) : outcome :=
  Answer {| status_code := 404; text := []; json := None;
                 retry_after := false |}.

(** A handler without keys, before any request. *)
Definition keyless_state : state :=
  {| handler := new_handler []; sent := [] |}.

Section Cloud.

(** [str.isalnum] on the code points above ASCII: the table of the Unicode
    database, which [re] consults for [\b] on [str] patterns. *)
Variable unicode_isalnum : N -> bool.

(** A word character of [re]: alphanumeric or the underscore. *)
Definition is_word (c : N) : bool :=
  if c <? 128 then upper c || lower c || digit c || (c =? 95)
  else unicode_isalnum c.

Definition word_before (prev : option N) : bool :=
  match prev with Some c => is_word c | None => false end.

Definition word_after (s : str) : bool :=
  match s with c :: _ => is_word c | [] => false end.

(** [\b] between the character [prev] (if any) and the rest [s]. *)
Definition at_boundary (prev : option N) (s : str) : bool :=
  xorb (word_before prev) (word_after s).

(** The pieces a pattern is a sequence of. *)
Inductive item :=
  | WordBoundary                           (* \b *)
  | Lit (c : N)                            (* a literal character *)
  | Rep (cls : N -> bool) (min : nat).     (* [cls]{min,}, greedy *)

(** The continuation of a match: the previous character and the rest of the
    text give the characters matched by the rest of the pattern. *)
Definition cont := option N -> str -> option str.

(** A greedy repetition of a class: one more character first, and only when
    the rest fails after it, stop here if [min] characters were taken. *)
Fixpoint greedy (cls : N -> bool) (k : cont) (min : nat)
    (prev : option N) (s : str) : option str :=
  let stop := match min with O => k prev s | S _ => None end in
  match s with
  | c :: s' =>
      if cls c then
        match greedy cls k (Nat.pred min) (Some c) s' with
        | Some m => Some (c :: m)
        | None => stop
        end
      else stop
  | [] => stop
  end.

(** Backtracking match of a pattern at one position. *)
Fixpoint match_here (p : list item) : cont :=
  match p with
  | [] => fun _ _ => Some []
  | WordBoundary :: p' => fun prev s =>
      if at_boundary prev s then match_here p' prev s else None
  | Lit c :: p' => fun prev s =>
      match s with
      | x :: s' =>
          if x =? c then cons x <$> match_here p' (Some x) s' else None
      | [] => None
      end
  | Rep cls min :: p' => greedy cls (match_here p') min
  end.

(** [r'\b[A-Za-z0-9._%+-]+@[A-Za-z0-9.-]+\.[A-Z|a-z]{2,}\b'] *)
Definition pattern : list item :=
  [ WordBoundary; Rep local_class 1; Lit AT; Rep domain_class 1; Lit DOT;
    Rep tld_class 2; WordBoundary ].

(** [re.findall] for a pattern without empty matches: the matches from left to
    right, each search resuming where the previous match ended.  [skip]
    counts the characters of the last match still to be passed. *)
Fixpoint findall_from (p : list item) (skip : nat) (prev : option N)
    (s : str) : list str :=
  match skip, s with
  | S k, x :: s' => findall_from p k (Some x) s'
  | S _, [] => []
  | O, _ =>
      match match_here p prev s with
      | Some m =>
          m :: match s with
               | x :: s' => findall_from p (Nat.pred (length m)) (Some x) s'
               | [] => []
               end
      | None =>
          match s with
          | x :: s' => findall_from p O (Some x) s'
          | [] => []
          end
      end
  end.

Definition findall (p : list item) (text : str) : list str :=
  findall_from p O None text.

(** The argument of [strip]: the double quote, then [<>[]()]. *)
Definition strip_chars : str := 34 :: py "<>[]()".

Definition extract_email (text : str) : option str :=
  match findall pattern text with
  | m :: _ => Some (strip strip_chars m)
  | [] => None
  end.

(** ** The retrying HTTP client *)

(** The network: what an attempt comes to, given the attempts made before. *)
Variable net : list request -> request -> outcome.

(** One attempt: the request is handed to the library as it stands and
    logged, and the network gives the attempt's outcome.  What [requests]
    does with a request before it leaves (its check of header values) and a
    redirect followed on its own are outside the model. *)
Definition send (req : request) : M outcome :=
  fun st =>
    (Ok (net (sent st) req),
     {| handler := handler st; sent := sent st ++ [req] |}).

(** [requests.get], [requests.patch], [requests.post]: the default adapter
    has [Retry(0, read=False)], so it makes one attempt and returns whatever
    answer comes, a [Retry-After] header or not. *)
Definition requests_request (req : request) : M response :=
  let! o := send req in
  match o with
  | Refused => raise ConnectionError
  | Answer r => ret r
  end.

(** [requests_retry_session(retries, backoff_factor, status_forcelist)]: the
    retry policy of the session it returns, mounted on both schemes. *)
Definition requests_retry_session (retries : nat)
    (status_forcelist : list Z) : Retry :=
  {| total := retries; read := retries; connect := retries;
     status_forcelist := status_forcelist |}.

(** [requests_retry_session()], with the defaults [retries=3] and
    [status_forcelist=(500, 502, 504)]. *)
Definition default_retry_session : Retry :=
  requests_retry_session 3 [500; 502; 504]%Z.

(** A [GET] through a session mounted with [HTTPAdapter(max_retries=retry)]
    (the code sends nothing else through it, and [GET] is on the list of
    methods [urllib3] retries).  A refused connection or a status of the
    force list is tried again while retries are left, and raises once they
    are used up.  An answer with a [Retry-After] header and one of the
    statuses 413, 429, 503 is tried again as well while retries are left,
    and is returned as it is once none is ([Retry.is_retry] tests [total]).
    Every retry counts against [total], and [read] and [connect] start no
    lower, so [total] is the count that runs out: [left] is what remains of
    it. *)
Fixpoint session_attempts (left : nat) (forcelist : list Z)
    (req : request) : M response :=
  let! o := send req in
  match o with
  | Refused =>
      match left with
      | O => raise ConnectionError
      | S left' => session_attempts left' forcelist req
      end
  | Answer r =>
      if bool_decide (status_code r ∈ forcelist) then
        match left with
        | O => raise RetryError
        | S left' => session_attempts left' forcelist req
        end
      else if waits_retry_after r then
        match left with
        | O => ret r
        | S left' => session_attempts left' forcelist req
        end
      else ret r
  end.

Definition get_request (url : str) (headers : gmap str str) : request :=
  {| meth := GET; url := url; headers := headers; json_records := None |}.

Definition session_get (session : Retry) (url : str)
    (headers : gmap str str) : M response :=
  session_attempts (total session) (status_forcelist session)
    (get_request url headers).

Definition requests_get (url : str) (headers : gmap str str) : M response :=
  requests_request (get_request url headers).

(** [response.json()] *)
Definition response_json (r : response) : M json_object :=
  match json r with
  | Some j => ret j
  | None => raise JSONDecodeError
  end.

(** ** [GitHubApiHandler] *)

Definition get_handler : M GitHubApiHandler :=
  fun st => (Ok (handler st), st).

Definition set_current_key_index (i : nat) : M unit :=
  fun st =>
    (Ok tt,
     {| handler := {| api_keys := api_keys (handler st);
                      current_key_index := i;
                      request_count := request_count (handler st);
                      max_requests_per_key :=
                        max_requests_per_key (handler st) |};
        sent := sent st |}).

Definition set_request_count (n : nat) : M unit :=
  fun st =>
    (Ok tt,
     {| handler := {| api_keys := api_keys (handler st);
                      current_key_index := current_key_index (handler st);
                      request_count := n;
                      max_requests_per_key :=
                        max_requests_per_key (handler st) |};
        sent := sent st |}).

Definition get_headers : M (gmap str str) :=
  let! self := get_handler in
  match api_keys self !! current_key_index self with
  | Some key => ret {[ py "Authorization" := py "token " ++ key ]}
  | None => raise IndexError
  end.

Definition rate_limit_url : str := py "https://api.github.com/rate_limit".

Definition get_remaining_requests : M Z :=
  let! headers := get_headers in
  let! response := session_get default_retry_session rate_limit_url headers in
  if (status_code response =? 200)%Z then
    let! rate_limit_data := response_json response in
    match rate_remaining rate_limit_data with
    | Some remaining => ret remaining
    | None => raise KeyError
    end
  else ret 0%Z.

Definition check_and_switch_key : M unit :=
  let! remaining_requests := get_remaining_requests in
  if (remaining_requests <? 10)%Z then
    let! self := get_handler in
    match length (api_keys self) with
    | O => raise ZeroDivisionError
    | S _ =>
        run set_current_key_index
              ((current_key_index self + 1) mod length (api_keys self))%nat
        then set_request_count 0
    end
  else ret tt.

(** Lines 59 to 62: the user name of an identifier. *)
Definition username_of (username_or_url : str) : str :=
  if startswith username_or_url (py "https://github.com/") then
    last_item (split 47 username_or_url)
  else username_or_url.

Definition profile_url (username : str) : str :=
  py "https://api.github.com/users/" ++ username.

Definition readme_url (username : str) : str :=
  py "https://raw.githubusercontent.com/" ++ username ++ py "/" ++ username
    ++ py "/main/README.md".

Definition get_email_from_readme (username : str)
    (headers : gmap str str) : M (option str) :=
  let! response := requests_get (readme_url username) headers in
  if (status_code response =? 200)%Z then
    ret (extract_email (text response))
  else ret None.

(** [user_data.get('email', '')] *)
Definition get_email (user_data : json_object) : option str :=
  match email user_data with
  | Some v => v
  | None => Some []
  end.

(** [self.request_count += 1] *)
Definition count_request : M unit :=
  let! self := get_handler in
  set_request_count (request_count self + 1).

Definition get_user_info_from_github_api (username_or_url : str)
    : M (option str) :=
  run check_and_switch_key then
  let! headers := get_headers in
  run count_request then
  let username := username_of username_or_url in
  let! response := session_get default_retry_session (profile_url username)
                headers in
  if negb (status_code response =? 200)%Z then ret None
  else
    let! user_data := response_json response in
    if truthy (get_email user_data) then ret (get_email user_data)
    else get_email_from_readme username headers.

(** ** The Airtable operations *)

Definition DQUOTE : str := [34].

Definition table_url (base_id table_name : str) : str :=
  py "https://api.airtable.com/v0/" ++ base_id ++ py "/" ++ table_name.

Definition eligible_filter : str :=
  py "?filterByFormula=AND(NOT({GitHub} = " ++ DQUOTE ++ DQUOTE
    ++ py "), {Status} = " ++ DQUOTE ++ py "Run" ++ DQUOTE ++ py ")".

Definition get_airtable_records (api_key base_id table_name : str)
    : M (list record) :=
  let url := table_url base_id table_name ++ eligible_filter in
  let headers : gmap str str :=
    {[ py "Authorization" := py "Bearer " ++ api_key ]} in
  let! response := requests_get url headers in
  if negb (status_code response =? 200)%Z then ret []
  else
    let! data := response_json response in
    ret (default [] (records data)).

Definition json_headers (api_key : str) : gmap str str :=
  <[ py "Content-Type" := py "application/json" ]>
    {[ py "Authorization" := py "Bearer " ++ api_key ]}.

Definition patch_request (api_key base_id table_name : str)
    (records : list out_record) : request :=
  {| meth := PATCH; url := table_url base_id table_name;
     headers := json_headers api_key; json_records := Some records |}.

Definition post_request (api_key base_id table_name : str)
    (records : list out_record) : request :=
  {| meth := POST; url := table_url base_id table_name;
     headers := json_headers api_key; json_records := Some records |}.

Definition update_airtable_records (api_key base_id table_name : str)
    (records : list out_record) : M bool :=
  let! response := requests_request
                (patch_request api_key base_id table_name records) in
  if negb (status_code response =? 200)%Z then ret false else ret true.

Definition create_airtable_records (api_key base_id table_name : str)
    (records : list out_record) : M bool :=
  let! response := requests_request
                (post_request api_key base_id table_name records) in
  if negb (status_code response =? 200)%Z then ret false else ret true.

(** ** [process_record] *)

(** [dict.get(key, '')] *)
Definition dict_get (d : gmap str str) (key : str) : str :=
  default [] (d !! key).

Definition record_fields (r : record) : gmap str str :=
  default ∅ (fields r).

(** The ['fields'] of the first update. *)
Definition running_fields : gmap str str :=
  {[ py "Status" := py "Running" ]}.

(** [update_fields]: ['Scouted Email'] is [email if email else '']. *)
Definition update_fields (email : option str) : gmap str str :=
  <[ py "Status" := py "Done" ]>
    {[ py "Scouted Email" := if truthy email then default [] email else [] ]}.

(** The ['fields'] of [new_record]. *)
Definition new_record_fields (fields : gmap str str) (github_url : str)
    (email : option str) : gmap str str :=
  <[ py "Check External Hacker Github" := py "Update (Github Repo)" ]>
  (<[ py "Repo to link" := dict_get fields (py "Repo to Link") ]>
  (<[ py "Scouted Email" := default [] email ]>
  (<[ py "Github" := github_url ]>
  {[ py "Name" := dict_get fields (py "Name") ]}))).

(** The two updates of the source record and the record created in the
    target table, as they stand in the ['records'] lists. *)
Definition running_update (record : record) : out_record :=
  {| out_id := Some (id record); out_fields := running_fields |}.

Definition done_update (record : record) (email : option str) : out_record :=
  {| out_id := Some (id record); out_fields := update_fields email |}.

Definition new_record (fields : gmap str str) (github_url : str)
    (email : option str) : out_record :=
  {| out_id := None;
     out_fields := new_record_fields fields github_url email |}.

(** [process_record]; its first argument, the handler object, is the one
    held in the state. *)
Definition process_record (record : record)
    (airtable_api_key base_id source_table_name target_table_name : str)
    : M unit :=
  let fields := record_fields record in
  let github_url := dict_get fields (py "GitHub") in
  let status := dict_get fields (py "Status") in
  if nonempty github_url && str_eqb status (py "Run") then
    run update_airtable_records airtable_api_key base_id source_table_name
          [ running_update record ]
    then
    let! email := get_user_info_from_github_api github_url in
    run update_airtable_records airtable_api_key base_id source_table_name
          [ done_update record email ]
    then
    if truthy email then
      run create_airtable_records airtable_api_key base_id target_table_name
            [ new_record fields github_url email ]
      then ret tt
    else ret tt
  else ret tt.

(** ** What the claims speak of *)

(** The character before a position, walking over [r] from [prev]. *)
Fixpoint last_or (prev : option N) (r : str) : option N :=
  match r with
  | [] => prev
  | c :: r' => last_or (Some c) r'
  end.

(** The shape of an email address: one or more characters of the local class,
    an at sign, one or more characters of the domain class, a dot, and two or
    more characters of the class [tld]. *)
Definition email_shape (tld : N -> bool) (m : str) : Prop :=
  ∃ l d t : str,
    m = l ++ AT :: d ++ DOT :: t
    ∧ l ≠ [] ∧ forallb local_class l = true
    ∧ d ≠ [] ∧ forallb domain_class d = true
    ∧ (2 ≤ length t)%nat ∧ forallb tld t = true.

(** The shape in the words of the specification: a top-level segment of two
    or more letters. *)
Definition canonical_email_shape (m : str) : Prop := email_shape letter m.

(** [text] has a substring of the canonical shape. *)
Definition contains_email (text : str) : Prop :=
  ∃ pre m post : str, text = pre ++ m ++ post ∧ canonical_email_shape m.

(** [m] sits in [pre ++ m ++ post] between two word boundaries. *)
Definition delimited (pre m post : str) : Prop :=
  at_boundary (last pre) (m ++ post) = true
  ∧ at_boundary (last m) post = true.

(** An occurrence in [text] of an address of the given shape, delimited by
    word boundaries. *)
Definition occurrence (tld : N -> bool) (text pre m post : str) : Prop :=
  text = pre ++ m ++ post ∧ email_shape tld m ∧ delimited pre m post.

(** A dot followed by two letters somewhere in the text. *)
Fixpoint dot_two_letters (s : str) : bool :=
  match s with
  | c :: s' =>
      ((c =? DOT)
       && match s' with
          | a :: b :: _ => letter a && letter b
          | _ => false
          end)
      || dot_two_letters s'
  | [] => false
  end.

(** The claim that the extractor returns the first substring of the canonical
    shape, whatever stands around it. *)
Definition returns_first_email (text : str) : Prop :=
  ∃ pre m post : str,
    text = pre ++ m ++ post ∧ canonical_email_shape m
    ∧ (∀ pre' m' post' : str, text = pre' ++ m' ++ post' →
         canonical_email_shape m' → (length pre ≤ length pre')%nat)
    ∧ extract_email text = Some (strip strip_chars m).


(** The requests a computation sends all satisfy [P]. *)
Definition sends {A} (P : request → Prop) (c : M A) : Prop :=
  ∀ st res st', c st = (res, st') →
    ∃ new, sent st' = sent st ++ new ∧ Forall P new.

(** A computation leaves the handler object as it is. *)
Definition keeps_handler {A} (c : M A) : Prop :=
  ∀ st res st', c st = (res, st') → handler st' = handler st.

(** A record the processor works on: a GitHub field that is not empty and
    the status [Run]. *)
Definition eligible (r : record) : Prop :=
  dict_get (record_fields r) (py "GitHub") ≠ []
  ∧ dict_get (record_fields r) (py "Status") = py "Run".

(** The pattern from its domain on, from its last dot on, and its tail: the
    top-level segment and the closing [\b]. *)
Definition tail_items : list item := [Rep tld_class 2; WordBoundary].
Definition dot_items : list item := Lit DOT :: tail_items.
Definition domain_items : list item := Rep domain_class 1 :: dot_items.

(** ** Further notions *)

(** [sep.join(l)] for a one-character separator. *)
Fixpoint join (sep : N) (l : list str) : str :=
  match l with
  | [] => []
  | [x] => x
  | x :: l' => x ++ sep :: join sep l'
  end.

(** How often [c] stands in [s]. *)
Definition count (c : N) (s : str) : nat :=
  length (List.filter (N.eqb c) s).

(** The characters a match of the pattern is made of. *)
Definition address_char (c : N) : bool :=
  local_class c || (c =? AT) || (c =? PIPE).

(** Lines 155 to 158 of [main]: the handler made of the comma-separated
    content of the key file. *)
Definition main_handler (file_content : str) : GitHubApiHandler :=
  new_handler (split 44 file_content).

(** The handler holds the keys [keys] and its index points at one of them. *)
Definition handler_ok (keys : list str) (h : GitHubApiHandler) : Prop :=
  api_keys h = keys ∧ (current_key_index h < length keys)%nat.

(** From a handler that is in order, [c] leaves it in order and raises
    neither [IndexError] nor [ZeroDivisionError]. *)
Definition safe {A} (keys : list str) (c : M A) : Prop :=
  ∀ st res st', c st = (res, st') → handler_ok keys (handler st) →
    handler_ok keys (handler st')
    ∧ res ≠ Raise IndexError ∧ res ≠ Raise ZeroDivisionError.





(** What is left of the lookup once the request is counted. *)
Definition lookup_tail (username : str) (headers : gmap str str)
    : M (option str) :=
  let! response := session_get default_retry_session (profile_url username)
                     headers in
  if negb (status_code response =? 200)%Z then ret None
  else
    let! user_data := response_json response in
    if truthy (get_email user_data) then ret (get_email user_data)
    else get_email_from_readme username headers.

(** * Properties *)

(** ** The matcher *)

Lemma last_or_app prev a b :
  last_or prev (a ++ b) = last_or (last_or prev a) b.
Proof. revert prev. induction a as [|c a IH]; intros prev; simpl; auto. Qed.

Lemma last_or_last prev r : r ≠ [] → last_or prev r = last r.
Proof.
  revert prev. induction r as [|c r IH]; intros prev Hr; [done|].
  simpl. destruct r as [|c' r]; [done|].
  rewrite IH by done. by rewrite last_cons_cons.
Qed.

Lemma last_or_None r : last_or None r = last r.
Proof. destruct r as [|c r]; [done|]. by apply last_or_last. Qed.

(** A successful greedy repetition took a run [r] of the class, at least
    [min] long, and the continuation matched what follows. *)
Lemma greedy_sound cls k s : ∀ min prev m,
  greedy cls k min prev s = Some m →
  ∃ r m' s', m = r ++ m' ∧ s = r ++ s' ∧ forallb cls r = true
    ∧ (min ≤ length r)%nat ∧ k (last_or prev r) s' = Some m'.
Proof.
  induction s as [|c s IH]; intros min prev m; simpl.
  - destruct min; [|done]. intros Hk.
    exists [], m, []. by repeat split.
  - assert (Hstop : match min with O => k prev (c :: s) | S _ => None end
                    = Some m →
            ∃ r m' s', m = r ++ m' ∧ c :: s = r ++ s'
              ∧ forallb cls r = true ∧ (min ≤ length r)%nat
              ∧ k (last_or prev r) s' = Some m').
    { destruct min; [|done]. intros Hk. exists [], m, (c :: s).
      by repeat split. }
    destruct (cls c) eqn:Hc; [|done].
    destruct (greedy cls k (Nat.pred min) (Some c) s) as [m1|] eqn:Hg;
      [|done].
    intros [= <-].
    destruct (IH _ _ _ Hg) as (r & m' & s' & -> & -> & Hr & Hl & Hk).
    exists (c :: r), m', s'. simpl. rewrite Hc, Hr. repeat split; [lia|done].
Qed.

(** Greedy priority: if some run [r] works, the repetition succeeds with a
    run at least as long. *)
Lemma greedy_longest cls k r : ∀ min prev s' m',
  forallb cls r = true → (min ≤ length r)%nat →
  k (last_or prev r) s' = Some m' →
  ∃ r2 m2 s2, greedy cls k min prev (r ++ s') = Some (r2 ++ m2)
    ∧ r ++ s' = r2 ++ s2 ∧ (length r ≤ length r2)%nat
    ∧ forallb cls r2 = true ∧ k (last_or prev r2) s2 = Some m2.
Proof.
  induction r as [|c r IH]; intros min prev s' m' Hr Hmin Hk.
  - simpl in *. assert (min = O) as -> by lia.
    destruct (greedy cls k 0 prev s') as [m|] eqn:Hg.
    + destruct (greedy_sound _ _ _ _ _ _ Hg)
        as (r2 & m2 & s2 & -> & -> & ? & ? & ?).
      exists r2, m2, s2. repeat split; [lia|done..].
    + exfalso. destruct s' as [|c s']; simpl in Hg; [congruence|].
      destruct (cls c); [|congruence].
      destruct (greedy cls k 0 (Some c) s'); congruence.
  - simpl in Hr. apply andb_true_iff in Hr as [Hc Hr]. simpl in Hmin, Hk.
    destruct (IH (Nat.pred min) (Some c) s' m' Hr ltac:(lia) Hk)
      as (r2 & m2 & s2 & Hg & Heq & Hlen & Hr2 & Hk2).
    exists (c :: r2), m2, s2. simpl. rewrite Hc, Hg, Heq, Hr2.
    repeat split; [lia|done].
Qed.

(** The equations of [match_here]. *)
Lemma match_here_boundary p prev s :
  match_here (WordBoundary :: p) prev s
  = if at_boundary prev s then match_here p prev s else None.
Proof. reflexivity. Qed.

Lemma match_here_lit c p prev s :
  match_here (Lit c :: p) prev s
  = match s with
    | x :: s' => if x =? c then cons x <$> match_here p (Some x) s' else None
    | [] => None
    end.
Proof. reflexivity. Qed.

Lemma match_here_rep cls min p prev s :
  match_here (Rep cls min :: p) prev s = greedy cls (match_here p) min prev s.
Proof. reflexivity. Qed.

Lemma match_here_nil prev s : match_here [] prev s = Some [].
Proof. reflexivity. Qed.

(** Two splittings of one text: the longer first part extends the shorter. *)
Lemma app_split_le (l1 l2 s1 s2 : str) :
  l1 ++ s1 = l2 ++ s2 → (length l1 ≤ length l2)%nat →
  ∃ x, l2 = l1 ++ x ∧ s1 = x ++ s2.
Proof.
  revert l2. induction l1 as [|a l1 IH]; intros l2 Heq Hlen; simpl in *.
  - by exists l2.
  - destruct l2 as [|b l2]; simpl in *; [lia|].
    injection Heq as -> Heq.
    destruct (IH l2 Heq ltac:(lia)) as (x & -> & ->). by exists x.
Qed.

(** A run of a class ends before the first character outside the class. *)
Lemma class_run_bound cls (t : str) : ∀ (x post rest : str) c,
  forallb cls t = true → cls c = false →
  t ++ post = x ++ c :: rest → (length t ≤ length x)%nat.
Proof.
  induction t as [|a t IH]; intros x post rest c Ht Hc Heq; simpl in *.
  - lia.
  - apply andb_true_iff in Ht as [Ha Ht].
    destruct x as [|b x]; simpl in *.
    + injection Heq as -> _. congruence.
    + injection Heq as _ Heq. specialize (IH _ _ _ _ Ht Hc Heq). lia.
Qed.

Lemma tail_sound prev s m :
  match_here tail_items prev s = Some m →
  ∃ post, s = m ++ post ∧ forallb tld_class m = true
    ∧ (2 ≤ length m)%nat ∧ at_boundary (last_or prev m) post = true.
Proof.
  unfold tail_items. rewrite match_here_rep.
  intros Hm. apply greedy_sound in Hm
    as (r & m' & s' & -> & -> & Hr & Hlen & Hk).
  rewrite match_here_boundary, match_here_nil in Hk.
  destruct (at_boundary (last_or prev r) s') eqn:Hb; [|done].
  injection Hk as <-. rewrite app_nil_r. by exists s'.
Qed.

Lemma tail_longest prev t post :
  forallb tld_class t = true → (2 ≤ length t)%nat →
  at_boundary (last_or prev t) post = true →
  ∃ t', match_here tail_items prev (t ++ post) = Some t'
    ∧ (length t ≤ length t')%nat.
Proof.
  intros Ht Hlen Hb.
  destruct (greedy_longest tld_class (match_here [WordBoundary]) t 2 prev
              post []) as (r2 & m2 & s2 & Hg & _ & Hle & _ & Hk); [done..| |].
  { by rewrite match_here_boundary, Hb. }
  rewrite match_here_boundary, match_here_nil in Hk.
  destruct (at_boundary (last_or prev r2) s2); [|done].
  injection Hk as <-. exists (r2 ++ []).
  split; [unfold tail_items; rewrite match_here_rep; exact Hg|].
  rewrite length_app. simpl. lia.
Qed.

Lemma dot_sound prev s m :
  match_here dot_items prev s = Some m →
  ∃ t post, s = DOT :: t ++ post ∧ m = DOT :: t
    ∧ forallb tld_class t = true ∧ (2 ≤ length t)%nat
    ∧ at_boundary (last_or (Some DOT) t) post = true.
Proof.
  unfold dot_items. rewrite match_here_lit.
  destruct s as [|x s]; [done|].
  destruct (x =? DOT) eqn:Hx; [|done]. apply N.eqb_eq in Hx as ->.
  destruct (match_here tail_items (Some DOT) s) as [t|] eqn:Ht; [|done].
  intros [= <-]. apply tail_sound in Ht as (post & -> & ? & ? & ?).
  by exists t, post.
Qed.

Lemma dot_longest prev t post :
  forallb tld_class t = true → (2 ≤ length t)%nat →
  at_boundary (last_or (Some DOT) t) post = true →
  ∃ m', match_here dot_items prev (DOT :: t ++ post) = Some m'
    ∧ (S (length t) ≤ length m')%nat.
Proof.
  intros Ht Hlen Hb.
  destruct (tail_longest (Some DOT) t post Ht Hlen Hb) as (t' & Hm & Hle).
  exists (DOT :: t'). unfold dot_items. rewrite match_here_lit.
  rewrite N.eqb_refl, Hm. simpl. split; [done|lia].
Qed.

Lemma domain_sound prev s m :
  match_here domain_items prev s = Some m →
  ∃ d t post, s = d ++ DOT :: t ++ post ∧ m = d ++ DOT :: t
    ∧ d ≠ [] ∧ forallb domain_class d = true
    ∧ forallb tld_class t = true ∧ (2 ≤ length t)%nat
    ∧ at_boundary (last_or (Some DOT) t) post = true.
Proof.
  unfold domain_items. rewrite match_here_rep.
  intros Hm. apply greedy_sound in Hm
    as (d & m' & s' & -> & -> & Hd & Hlen & Hk).
  apply dot_sound in Hk as (t & post & -> & -> & ? & ? & ?).
  exists d, t, post. repeat split; try done.
  intros ->. simpl in Hlen. lia.
Qed.

Lemma domain_longest prev d t post :
  d ≠ [] → forallb domain_class d = true →
  forallb tld_class t = true → (2 ≤ length t)%nat →
  at_boundary (last_or (Some DOT) t) post = true →
  ∃ m', match_here domain_items prev (d ++ DOT :: t ++ post) = Some m'
    ∧ (length d + S (length t) ≤ length m')%nat.
Proof.
  intros Hne Hd Ht Hlen Hb.
  destruct (dot_longest (last_or prev d) t post Ht Hlen Hb)
    as (m1 & Hm1 & Hle1).
  destruct (greedy_longest domain_class (match_here dot_items) d 1 prev
              (DOT :: t ++ post) m1)
    as (r2 & m2 & s2 & Hg & Heq & Hle & _ & Hk);
    [done| |done|].
  { destruct d; [done|simpl; lia]. }
  exists (r2 ++ m2).
  split; [unfold domain_items; rewrite match_here_rep; exact Hg|].
  rewrite length_app.
  destruct (app_split_le _ _ _ _ Heq Hle) as (x & -> & Hx).
  destruct x as [|c x].
  - rewrite app_nil_r in *. simpl in Hx. subst s2.
    rewrite Hm1 in Hk. injection Hk as <-. lia.
  - apply dot_sound in Hk as (t2 & post2 & -> & -> & _ & Hlen2 & _).
    simpl in Hx. injection Hx as <- Hx.
    assert (length t ≤ length x)%nat.
    { eapply (class_run_bound tld_class); [exact Ht| |exact Hx]. done. }
    rewrite length_app. simpl. lia.
Qed.

Lemma pattern_sound prev s m :
  match_here pattern prev s = Some m →
  ∃ post, s = m ++ post ∧ email_shape tld_class m
    ∧ at_boundary prev (m ++ post) = true
    ∧ at_boundary (last m) post = true.
Proof.
  unfold pattern. rewrite match_here_boundary, match_here_rep.
  destruct (at_boundary prev s) eqn:Hb; [|done].
  intros Hm. apply greedy_sound in Hm
    as (l & m' & s' & -> & -> & Hl & Hlen & Hk).
  rewrite match_here_lit in Hk.
  destruct s' as [|x s']; [done|].
  destruct (x =? AT) eqn:Hx; [|done]. apply N.eqb_eq in Hx as ->.
  change (match_here _ (Some AT) s') with
    (match_here domain_items (Some AT) s') in Hk.
  destruct (match_here domain_items (Some AT) s') as [m1|] eqn:Hm1; [|done].
  injection Hk as <-.
  apply domain_sound in Hm1
    as (d & t & post & -> & -> & Hd & Hdc & Ht & Htl & Hbe).
  exists post. split; [|split; [|split]].
  - by rewrite <- !app_assoc; simpl; rewrite <- !app_assoc.
  - exists l, d, t. repeat split; try done. intros ->. simpl in Hlen. lia.
  - rewrite <- Hb. f_equal.
    by rewrite <- !app_assoc; simpl; rewrite <- !app_assoc.
  - rewrite <- Hbe. f_equal.
    rewrite <- last_or_None.
    rewrite last_or_app. simpl. rewrite last_or_app. simpl.
    destruct t as [|a t]; [simpl in Htl; lia|]. done.
Qed.

(** At a position where an address of the pattern's shape stands between word
    boundaries, the pattern matches, and its match is at least as long. *)
Lemma pattern_longest prev m post :
  email_shape tld_class m →
  at_boundary prev (m ++ post) = true →
  at_boundary (last m) post = true →
  ∃ m', match_here pattern prev (m ++ post) = Some m'
    ∧ (length m ≤ length m')%nat.
Proof.
  intros (l & d & t & -> & Hl & Hlc & Hd & Hdc & Hlen & Ht) Hb Hbe.
  assert (Hbe' : at_boundary (last_or (Some DOT) t) post = true).
  { rewrite <- Hbe. f_equal. rewrite <- last_or_None.
    rewrite last_or_app. simpl. rewrite last_or_app. simpl.
    destruct t as [|a t]; [simpl in Hlen; lia|]. done. }
  destruct (domain_longest (Some AT) d t post Hd Hdc Ht Hlen Hbe')
    as (m1 & Hm1 & Hle1).
  replace ((l ++ AT :: d ++ DOT :: t) ++ post)
    with (l ++ AT :: d ++ DOT :: t ++ post) in *
    by (by rewrite <- !app_assoc; simpl; rewrite <- !app_assoc).
  unfold pattern. rewrite match_here_boundary, match_here_rep, Hb.
  destruct (greedy_longest local_class
              (match_here (Lit AT :: domain_items)) l 1 prev
              (AT :: d ++ DOT :: t ++ post) (AT :: m1))
    as (r2 & m2 & s2 & Hg & Heq & Hle & Hr2 & Hk); [done| | |].
  { destruct l; [done|simpl; lia]. }
  { rewrite match_here_lit, N.eqb_refl, Hm1. done. }
  exists (r2 ++ m2). split; [exact Hg|].
  destruct (app_split_le _ _ _ _ Heq Hle) as (x & -> & Hx).
  destruct x as [|c x].
  - rewrite app_nil_r in *. simpl in Hx. subst s2.
    rewrite match_here_lit, N.eqb_refl, Hm1 in Hk.
    injection Hk as <-. rewrite !length_app. simpl. rewrite length_app.
    simpl. lia.
  - exfalso. simpl in Hx. injection Hx as <- _.
    rewrite forallb_app in Hr2. simpl in Hr2.
    apply andb_true_iff in Hr2 as [_ Hr2]. done.
Qed.

(** ** The search *)

(** The first element of [findall] is the match at the leftmost position
    where the pattern matches; the list is empty when it matches nowhere. *)
Lemma findall_from_head p s : ∀ prev,
  match findall_from p 0 prev s with
  | m :: _ =>
      ∃ pre rest, s = pre ++ rest
        ∧ match_here p (last_or prev pre) rest = Some m
        ∧ ∀ pre' rest', s = pre' ++ rest' →
            (length pre' < length pre)%nat →
            match_here p (last_or prev pre') rest' = None
  | [] =>
      ∀ pre rest, s = pre ++ rest →
        match_here p (last_or prev pre) rest = None
  end.
Proof.
  induction s as [|x s IH]; intros prev.
  - simpl. destruct (match_here p prev []) as [m|] eqn:Hm.
    + exists [], []. repeat split; [done|]. simpl. intros; lia.
    + intros pre rest Heq. symmetry in Heq.
      apply app_eq_nil in Heq as [-> ->]. done.
  - simpl. destruct (match_here p prev (x :: s)) as [m|] eqn:Hm.
    + exists [], (x :: s). repeat split; [done|]. simpl. intros; lia.
    + specialize (IH (Some x)).
      destruct (findall_from p 0 (Some x) s) as [|m ms].
      * intros [|y pre] rest Heq; simpl in *; [by subst|].
        injection Heq as <- Heq. by apply IH.
      * destruct IH as (pre & rest & -> & Hmatch & Hfirst).
        exists (x :: pre), rest. repeat split; [done|].
        intros [|y pre'] rest' Heq Hlen; simpl in *; [by subst|].
        injection Heq as <- Heq. apply Hfirst; [done|lia].
Qed.

(** ** Stripping *)

Lemma lstrip_head chars c s : c ∉ chars → lstrip chars (c :: s) = c :: s.
Proof. intros Hc. simpl. by rewrite bool_decide_eq_false_2. Qed.

Lemma strip_edges chars (s : str) a b :
  head s = Some a → last s = Some b → a ∉ chars → b ∉ chars →
  strip chars s = s.
Proof.
  intros Ha Hb Hna Hnb. unfold strip, rstrip.
  destruct s as [|a' s]; [done|]. injection Ha as ->.
  rewrite lstrip_head by done.
  apply last_Some in Hb as (s0 & Hs0). rewrite Hs0.
  rewrite rev_app_distr. simpl. rewrite bool_decide_eq_false_2 by done.
  change (b :: rev s0) with (rev [b] ++ rev s0).
  by rewrite <- rev_app_distr, rev_involutive.
Qed.

Lemma local_not_stripped c : local_class c = true → c ∉ strip_chars.
Proof.
  intros Hc Hin. unfold strip_chars in Hin.
  repeat (apply elem_of_cons in Hin as [->|Hin]; [by vm_compute in Hc|]).
  by apply elem_of_nil in Hin.
Qed.

Lemma tld_not_stripped c : tld_class c = true → c ∉ strip_chars.
Proof.
  intros Hc Hin. unfold strip_chars in Hin.
  repeat (apply elem_of_cons in Hin as [->|Hin]; [by vm_compute in Hc|]).
  by apply elem_of_nil in Hin.
Qed.

Lemma forallb_last cls (t : str) c :
  forallb cls t = true → last t = Some c → cls c = true.
Proof.
  intros Ht Hl. apply last_Some in Hl as (t0 & ->).
  rewrite forallb_app in Ht. simpl in Ht.
  by destruct (cls c); [|rewrite andb_false_r in Ht].
Qed.

(** A match of the pattern's shape neither begins nor ends with a character
    that [strip] removes. *)
Lemma strip_email_shape m :
  email_shape tld_class m → strip strip_chars m = m.
Proof.
  intros (l & d & t & -> & Hl & Hlc & _ & _ & Hlen & Ht).
  destruct l as [|a l]; [done|]. simpl in Hlc.
  apply andb_true_iff in Hlc as [Ha _].
  destruct (last t) as [b|] eqn:Hb.
  2:{ apply last_None in Hb as ->. simpl in Hlen. lia. }
  apply (strip_edges _ _ a b); [done| |by apply local_not_stripped|].
  - change (a :: l) with ([a] ++ l). rewrite <- !app_assoc.
    rewrite !last_app. simpl. rewrite last_cons, last_app. simpl.
    rewrite last_cons, Hb. done.
  - apply tld_not_stripped. by eapply forallb_last.
Qed.

(** ** The extractor *)

Lemma letter_tld c : letter c = true → tld_class c = true.
Proof.
  unfold letter, tld_class. intros H.
  apply orb_true_iff in H as [->| ->]; [done|].
  by rewrite !orb_true_r.
Qed.

Lemma tld_letter c : tld_class c = true → c ≠ PIPE → letter c = true.
Proof.
  unfold letter, tld_class. intros H Hc.
  destruct (upper c); [done|]. destruct (lower c); [done|].
  simpl in H. rewrite orb_false_r in H. by apply N.eqb_eq in H.
Qed.

Lemma canonical_shape_matches m :
  canonical_email_shape m → email_shape tld_class m.
Proof.
  intros (l & d & t & -> & ? & ? & ? & ? & ? & Ht).
  exists l, d, t. repeat split; try done.
  apply forallb_forall. intros c Hc.
  apply letter_tld. by eapply forallb_forall in Ht.
Qed.

Lemma email_shape_without_bar m :
  email_shape tld_class m → PIPE ∉ m → canonical_email_shape m.
Proof.
  intros (l & d & t & -> & ? & ? & ? & ? & ? & Ht) Hbar.
  exists l, d, t. repeat split; try done.
  apply forallb_forall. intros c Hc.
  apply tld_letter; [by eapply forallb_forall in Ht|].
  intros ->. apply Hbar. apply elem_of_app. right.
  apply elem_of_cons. right. apply elem_of_app. right.
  apply elem_of_cons. right. by apply list_elem_of_In.
Qed.

Lemma email_shape_has_at tld m : email_shape tld m → m ≠ [] ∧ AT ∈ m.
Proof.
  intros (l & d & t & -> & _). split.
  - by destruct l.
  - apply elem_of_app. right. apply elem_of_cons. by left.
Qed.

Lemma findall_head_sound text m ms :
  findall pattern text = m :: ms →
  ∃ pre post, text = pre ++ m ++ post ∧ email_shape tld_class m.
Proof.
  unfold findall. intros Hf.
  pose proof (findall_from_head pattern text None) as Hhead.
  rewrite Hf in Hhead. destruct Hhead as (pre & rest & -> & Hmatch & _).
  destruct (pattern_sound _ _ _ Hmatch) as (post & -> & Hshape & _).
  by exists pre, post.
Qed.

(** What [extract_email] returns is a match of the pattern in the text,
    untouched by [strip]. *)
Lemma extract_email_sound text e :
  extract_email text = Some e →
  ∃ pre post, text = pre ++ e ++ post ∧ email_shape tld_class e
    ∧ delimited pre e post
    ∧ match_here pattern (last pre) (e ++ post) = Some e.
Proof.
  unfold extract_email, findall.
  pose proof (findall_from_head pattern text None) as Hhead.
  destruct (findall_from pattern 0 None text) as [|m ms]; [done|].
  destruct Hhead as (pre & rest & -> & Hmatch & _).
  destruct (pattern_sound _ _ _ Hmatch) as (post & -> & Hshape & Hb & He).
  rewrite strip_email_shape by done. intros [= <-].
  rewrite last_or_None in Hb, Hmatch. by exists pre, post.
Qed.

(** C9: a returned match is non-empty and contains an at sign; stripping
    leaves every match as it is, so a found address is never the empty
    string that the processor stores for "none found". *)
Theorem extract_email_nonempty text e :
  extract_email text = Some e →
  e ≠ [] ∧ AT ∈ e ∧ truthy (Some e) = true
  ∧ ∃ m ms, findall pattern text = m :: ms
      ∧ strip strip_chars m = m ∧ e = m.
Proof.
  intros He.
  destruct (extract_email_sound _ _ He) as (pre & post & _ & Hshape & _).
  destruct (email_shape_has_at _ _ Hshape) as [Hne Hat].
  repeat split; [done|done|by destruct e|].
  unfold extract_email in He.
  destruct (findall pattern text) as [|m ms] eqn:Hf; [done|].
  injection He as He. exists m, ms. split; [done|].
  assert (Hm : strip strip_chars m = m).
  { destruct (findall_head_sound text m ms) as (pre' & post' & _ & Hs);
      [done|]. by apply strip_email_shape. }
  split; [done|congruence].
Qed.

(** C7, amended: in a text without the bar character that has an address of
    the canonical shape between two word boundaries, the extractor returns
    the occurrence that starts first, the longest one that starts there, and
    the result has no quote or bracket at its edges. *)
Theorem extract_email_first_occurrence text :
  PIPE ∉ text →
  (∃ pre m post, occurrence letter text pre m post) →
  ∃ pre0 m0 post0,
    occurrence letter text pre0 m0 post0
    ∧ extract_email text = Some m0
    ∧ strip strip_chars m0 = m0
    ∧ ∀ pre m post, occurrence letter text pre m post →
        (length pre0 ≤ length pre)%nat
        ∧ (length pre = length pre0 → (length m ≤ length m0)%nat).
Proof.
  intros Hbar (pre & m & post & Htext & Hshape & Hb1 & Hb2).
  assert (Hfound : ∀ pre m post, occurrence letter text pre m post →
            ∃ m', match_here pattern (last_or None pre) (m ++ post) = Some m'
                  ∧ (length m ≤ length m')%nat).
  { intros pre1 m1 post1 (_ & Hs & Hd1 & Hd2). rewrite last_or_None.
    apply pattern_longest; [by apply canonical_shape_matches|done..]. }
  pose proof (findall_from_head pattern text None) as Hhead.
  unfold extract_email, findall.
  destruct (findall_from pattern 0 None text) as [|m0 ms].
  { exfalso. specialize (Hhead pre (m ++ post) Htext).
    destruct (Hfound pre m post) as (m' & Hm' & _); [done|]. congruence. }
  destruct Hhead as (pre0 & rest0 & Htext0 & Hmatch & Hfirst).
  destruct (pattern_sound _ _ _ Hmatch) as (post0 & -> & Hshape0 & Hbb & Hbe).
  rewrite last_or_None in Hbb.
  assert (Hm0 : PIPE ∉ m0).
  { intros Hin. apply Hbar. rewrite Htext0.
    apply elem_of_app. right. apply elem_of_app. by left. }
  exists pre0, m0, post0. split; [|split; [|split]].
  - split; [done|]. split; [by apply email_shape_without_bar|done].
  - by rewrite strip_email_shape.
  - by apply strip_email_shape.
  - intros pre1 m1 post1 Hocc.
    destruct (Hfound _ _ _ Hocc) as (m' & Hm' & Hle).
    destruct Hocc as (Htext1 & _).
    assert (Hpos : (length pre0 ≤ length pre1)%nat).
    { destruct (decide (length pre1 < length pre0)%nat) as [Hlt|]; [|lia].
      rewrite (Hfirst pre1 (m1 ++ post1) Htext1 Hlt) in Hm'. done. }
    split; [done|]. intros Hlen.
    rewrite Htext0 in Htext1.
    apply app_inj_1 in Htext1 as [-> Hrest]; [|done].
    rewrite <- Hrest, Hmatch in Hm'. by injection Hm' as <-.
Qed.

(** Without the bar character, a text with no substring of the canonical
    shape has no match. *)
Lemma extract_email_none_without_bar text :
  PIPE ∉ text → ¬ contains_email text → extract_email text = None.
Proof.
  intros Hbar Hno. destruct (extract_email text) as [e|] eqn:He; [|done].
  exfalso. apply Hno.
  destruct (extract_email_sound _ _ He) as (pre & post & -> & Hshape & _).
  exists pre, e, post. split; [done|].
  apply email_shape_without_bar; [done|].
  intros Hin. apply Hbar. apply elem_of_app. right.
  apply elem_of_app. by left.
Qed.

(** A substring of the canonical shape has a dot followed by two letters. *)
Lemma contains_email_dot_two_letters text :
  contains_email text → dot_two_letters text = true.
Proof.
  intros (pre & m & post & -> & l & d & t & -> & _ & _ & _ & _ & Hlen & Ht).
  destruct t as [|a [|b t]]; simpl in Hlen; [lia..|].
  simpl in Ht. apply andb_true_iff in Ht as [Ha Ht].
  apply andb_true_iff in Ht as [Hb _].
  assert (Hgen : ∀ x y : str, dot_two_letters (x ++ DOT :: a :: b :: y) = true).
  { induction x as [|c x IH]; intros y; simpl.
    - by rewrite Ha, Hb.
    - rewrite IH. apply orb_true_r. }
  replace (pre ++ (l ++ AT :: d ++ DOT :: a :: b :: t) ++ post)
    with ((pre ++ l ++ AT :: d) ++ DOT :: a :: b :: (t ++ post)).
  - apply Hgen.
  - by rewrite <- !app_assoc; simpl; rewrite <- !app_assoc.
Qed.

(** C6: on the text [a@b.c|d], which has no substring of the canonical shape,
    the extractor returns the whole text: the class of the top-level segment
    accepts the bar. *)
Theorem extract_email_accepts_bar :
  ¬ contains_email (py "a@b.c|d")
  ∧ extract_email (py "a@b.c|d") = Some (py "a@b.c|d").
Proof.
  split.
  - intros H. apply contains_email_dot_two_letters in H. by vm_compute in H.
  - by vm_compute.
Qed.

(** ** The monad and the log of requests *)

Lemma bind_ok {A B} (c : M A) (k : A → M B) st a st1 :
  c st = (Ok a, st1) → bind c k st = k a st1.
Proof. unfold bind. by intros ->. Qed.

Lemma bind_raise {A B} (c : M A) (k : A → M B) st e st1 :
  c st = (Raise e, st1) → bind c k st = (Raise e, st1).
Proof. unfold bind. by intros ->. Qed.

Lemma sends_ret {A} P (a : A) : sends P (ret a).
Proof. intros st res st' [= _ <-]. exists []. by rewrite app_nil_r. Qed.

Lemma sends_raise {A} P e : sends P (@raise A e).
Proof. intros st res st' [= _ <-]. exists []. by rewrite app_nil_r. Qed.

Lemma sends_bind {A B} P (c : M A) (k : A → M B) :
  sends P c → (∀ a, sends P (k a)) → sends P (bind c k).
Proof.
  intros Hc Hk st res st'. unfold bind.
  destruct (c st) as [[a|e] st1] eqn:Hcst.
  - intros Hkst. destruct (Hc _ _ _ Hcst) as (n1 & E1 & H1).
    destruct (Hk _ _ _ _ Hkst) as (n2 & E2 & H2).
    exists (n1 ++ n2). split; [|by apply Forall_app].
    by rewrite E2, E1, app_assoc.
  - intros [= _ <-]. by apply (Hc _ _ _ Hcst).
Qed.

Lemma sends_send (P : request → Prop) req : P req → sends P (send req).
Proof.
  intros HP st res st' [= _ <-]. exists [req]. split; [done|].
  by apply Forall_singleton.
Qed.

Lemma sends_get_handler P : sends P get_handler.
Proof. intros st res st' [= _ <-]. exists []. by rewrite app_nil_r. Qed.

Lemma sends_set_current_key_index P i : sends P (set_current_key_index i).
Proof. intros st res st' [= _ <-]. exists []. simpl. by rewrite app_nil_r. Qed.

Lemma sends_set_request_count P n : sends P (set_request_count n).
Proof. intros st res st' [= _ <-]. exists []. simpl. by rewrite app_nil_r. Qed.

Lemma sends_requests_request (P : request → Prop) req :
  P req → sends P (requests_request req).
Proof.
  intros HP. apply sends_bind; [by apply sends_send|].
  intros [|r]; [apply sends_raise|apply sends_ret].
Qed.

Lemma sends_session_attempts (P : request → Prop) left forcelist req :
  P req → sends P (session_attempts left forcelist req).
Proof.
  intros HP. induction left as [|left IH]; simpl.
  - apply sends_bind; [by apply sends_send|].
    intros [|r]; [apply sends_raise|].
    destruct (bool_decide _); [apply sends_raise|].
    destruct (waits_retry_after r); apply sends_ret.
  - apply sends_bind; [by apply sends_send|].
    intros [|r]; [apply IH|].
    destruct (bool_decide _); [apply IH|].
    destruct (waits_retry_after r); [apply IH|apply sends_ret].
Qed.

Lemma sends_response_json P r : sends P (response_json r).
Proof.
  unfold response_json. destruct (json r); [apply sends_ret|apply sends_raise].
Qed.

Lemma sends_get_headers P : sends P get_headers.
Proof.
  apply sends_bind; [apply sends_get_handler|].
  intros self. destruct (_ !! _); [apply sends_ret|apply sends_raise].
Qed.

Lemma keeps_ret {A} (a : A) : keeps_handler (ret a).
Proof. by intros st res st' [= _ <-]. Qed.

Lemma keeps_raise {A} e : keeps_handler (@raise A e).
Proof. by intros st res st' [= _ <-]. Qed.

Lemma keeps_bind {A B} (c : M A) (k : A → M B) :
  keeps_handler c → (∀ a, keeps_handler (k a)) → keeps_handler (bind c k).
Proof.
  intros Hc Hk st res st'. unfold bind.
  destruct (c st) as [[a|e] st1] eqn:Hcst.
  - intros Hkst. rewrite (Hk _ _ _ _ Hkst). by apply (Hc _ _ _ Hcst).
  - intros [= _ <-]. by apply (Hc _ _ _ Hcst).
Qed.

Lemma keeps_send req : keeps_handler (send req).
Proof. by intros st res st' [= _ <-]. Qed.

Lemma keeps_get_handler : keeps_handler get_handler.
Proof. by intros st res st' [= _ <-]. Qed.

Lemma keeps_requests_request req : keeps_handler (requests_request req).
Proof.
  apply keeps_bind; [apply keeps_send|].
  intros [|r]; [apply keeps_raise|apply keeps_ret].
Qed.

Lemma keeps_session_attempts left forcelist req :
  keeps_handler (session_attempts left forcelist req).
Proof.
  induction left as [|left IH]; simpl.
  - apply keeps_bind; [apply keeps_send|].
    intros [|r]; [apply keeps_raise|].
    destruct (bool_decide _); [apply keeps_raise|].
    destruct (waits_retry_after r); apply keeps_ret.
  - apply keeps_bind; [apply keeps_send|].
    intros [|r]; [apply IH|].
    destruct (bool_decide _); [apply IH|].
    destruct (waits_retry_after r); [apply IH|apply keeps_ret].
Qed.

Lemma keeps_response_json r : keeps_handler (response_json r).
Proof.
  unfold response_json. destruct (json r); [apply keeps_ret|apply keeps_raise].
Qed.

Lemma keeps_get_headers : keeps_handler get_headers.
Proof.
  apply keeps_bind; [apply keeps_get_handler|].
  intros self. destruct (_ !! _); [apply keeps_ret|apply keeps_raise].
Qed.

(** [get_headers] reads the state and sends nothing. *)
Lemma get_headers_state st res st' : get_headers st = (res, st') → st' = st.
Proof.
  unfold get_headers, bind, get_handler.
  destruct (_ !! _); by intros [= _ <-].
Qed.

Lemma keeps_get_remaining_requests : keeps_handler get_remaining_requests.
Proof.
  apply keeps_bind; [apply keeps_get_headers|]. intros headers.
  apply keeps_bind; [apply keeps_session_attempts|]. intros response.
  destruct (_ =? _)%Z; [|apply keeps_ret].
  apply keeps_bind; [apply keeps_response_json|]. intros data.
  destruct (rate_remaining data); [apply keeps_ret|apply keeps_raise].
Qed.

(** The rate-limit query sends only [GET]s to the rate-limit address. *)
Lemma sends_get_remaining_requests :
  sends (λ q, meth q = GET ∧ url q = rate_limit_url) get_remaining_requests.
Proof.
  apply sends_bind; [apply sends_get_headers|]. intros headers.
  apply sends_bind; [by apply sends_session_attempts|]. intros response.
  destruct (_ =? _)%Z; [|apply sends_ret].
  apply sends_bind; [apply sends_response_json|]. intros data.
  destruct (rate_remaining data); [apply sends_ret|apply sends_raise].
Qed.

(** ** The key rotator *)

(** C4: with two or more keys, a rate-limit query that reports fewer than 10
    remaining calls makes [check_and_switch_key] move the index one position
    on, modulo the number of keys, and set the request counter to 0. *)
Theorem check_and_switch_key_rotates st remaining st1 :
  (2 ≤ length (api_keys (handler st)))%nat →
  get_remaining_requests st = (Ok remaining, st1) →
  (remaining < 10)%Z →
  let n := length (api_keys (handler st)) in
  let i := current_key_index (handler st) in
  ∃ st2, check_and_switch_key st = (Ok tt, st2)
    ∧ current_key_index (handler st2) = ((i + 1) mod n)%nat
    ∧ request_count (handler st2) = 0%nat
    ∧ api_keys (handler st2) = api_keys (handler st)
    ∧ max_requests_per_key (handler st2) = max_requests_per_key (handler st)
    ∧ sent st2 = sent st1
    ∧ (current_key_index (handler st2) < n)%nat
    ∧ current_key_index (handler st2) ≠ i.
Proof.
  intros Hlen Hrem Hlt n i.
  pose proof (keeps_get_remaining_requests _ _ _ Hrem) as Hh.
  unfold check_and_switch_key. rewrite (bind_ok _ _ _ _ _ Hrem).
  apply Z.ltb_lt in Hlt. rewrite Hlt.
  unfold bind, get_handler, set_current_key_index, set_request_count.
  rewrite Hh. fold n i.
  destruct n as [|n'] eqn:Hn; [lia|]. rewrite <- Hn.
  eexists. split; [reflexivity|]. simpl.
  assert (Hmod : ((i + 1) mod n < n)%nat) by (apply Nat.mod_upper_bound; lia).
  split_and!; [done|done|by rewrite Hh|by rewrite Hh|done|done|].
  intros Heq. destruct (decide (i + 1 < n)%nat) as [Hlt'|Hge].
  - rewrite Nat.mod_small in Heq by done. lia.
  - destruct (decide (i + 1 = n)%nat) as [Hin|Hne].
    + rewrite Hin, Nat.Div0.mod_same in Heq. lia.
    + lia.
Qed.

Lemma sends_check_and_switch_key :
  sends (λ q, meth q = GET ∧ url q = rate_limit_url) check_and_switch_key.
Proof.
  apply sends_bind; [apply sends_get_remaining_requests|]. intros remaining.
  destruct (_ <? _)%Z; [|apply sends_ret].
  apply sends_bind; [apply sends_get_handler|]. intros self.
  destruct (length _); [apply sends_raise|].
  apply sends_bind; [apply sends_set_current_key_index|]. intros _.
  apply sends_set_request_count.
Qed.

(** ** The Airtable operations *)

(** A plain [requests] call is one attempt on the wire, whatever comes of
    it. *)
Lemma requests_request_once req st :
  requests_request req st =
    (match net (sent st) req with
     | Refused => Raise ConnectionError
     | Answer r => Ok r
     end,
     {| handler := handler st; sent := sent st ++ [req] |}).
Proof. unfold requests_request, bind, send. by destruct (net _ _). Qed.

Lemma update_airtable_records_once api_key base_id table_name records st :
  ∃ res, update_airtable_records api_key base_id table_name records st =
    (res, {| handler := handler st;
             sent := sent st
                     ++ [patch_request api_key base_id table_name records] |}).
Proof.
  unfold update_airtable_records, bind. rewrite requests_request_once.
  destruct (net _ _) as [|r]; [by eexists|].
  destruct (negb _); by eexists.
Qed.


(** ** The lookup *)

Lemma sends_get_email_from_readme username headers :
  sends (λ q, q = get_request (readme_url username) headers)
    (get_email_from_readme username headers).
Proof.
  apply sends_bind; [by apply sends_requests_request|]. intros response.
  destruct (_ =? _)%Z; apply sends_ret.
Qed.

Lemma sends_count_request P : sends P count_request.
Proof.
  apply sends_bind; [apply sends_get_handler|]. intros self.
  apply sends_set_request_count.
Qed.

Lemma count_request_sent st res st' :
  count_request st = (res, st') → res = Ok tt ∧ sent st' = sent st.
Proof. by intros [= <- <-]. Qed.

Lemma sends_mono {A} (P Q : request → Prop) (c : M A) :
  (∀ q, P q → Q q) → sends P c → sends Q c.
Proof.
  intros HPQ Hc st res st' Hrun.
  destruct (Hc _ _ _ Hrun) as (new & ? & Hnew).
  exists new. split; [done|]. by eapply Forall_impl.
Qed.

(** The lookup sends nothing but [GET]s. *)
Lemma sends_get_user_info username_or_url :
  sends (λ q, meth q = GET) (get_user_info_from_github_api username_or_url).
Proof.
  apply sends_bind.
  { eapply sends_mono; [|apply sends_check_and_switch_key]. by intros q [? _]. }
  intros _. apply sends_bind; [apply sends_get_headers|]. intros headers.
  apply sends_bind; [apply sends_count_request|]. intros _.
  apply sends_bind; [by apply sends_session_attempts|]. intros response.
  destruct (negb _); [apply sends_ret|].
  apply sends_bind; [apply sends_response_json|]. intros user_data.
  destruct (truthy _); [apply sends_ret|].
  eapply sends_mono; [|apply sends_get_email_from_readme]. by intros q ->.
Qed.

(** How often a session tries: the request goes out once, and at most [left]
    times more. *)
Lemma session_attempts_log left forcelist req : ∀ st res st',
  session_attempts left forcelist req st = (res, st') →
  handler st' = handler st
  ∧ ∃ n, (n ≤ left)%nat ∧ sent st' = sent st ++ req :: replicate n req.
Proof.
  induction left as [|left IH]; intros st res st'; simpl;
    unfold bind, send; simpl.
  - destruct (net (sent st) req) as [|r].
    + intros [= _ <-]. split; [done|]. by exists 0%nat.
    + destruct (bool_decide _); [|destruct (waits_retry_after r)];
        intros [= _ <-]; (split; [done|]); by exists 0%nat.
  - assert (Hagain : session_attempts left forcelist req
                       {| handler := handler st; sent := sent st ++ [req] |}
                     = (res, st') →
              handler st' = handler st
              ∧ ∃ n, (n ≤ S left)%nat
                  ∧ sent st' = sent st ++ req :: replicate n req).
    { intros Hrun. destruct (IH _ _ _ Hrun) as (Hh & n & Hn & Hs).
      split; [done|]. exists (S n). split; [lia|].
      simpl in *. by rewrite Hs, <- app_assoc. }
    destruct (net (sent st) req) as [|r]; [done|].
    destruct (bool_decide _); [done|].
    destruct (waits_retry_after r); [done|].
    intros [= _ <-]. split; [done|]. exists 0%nat. split; [lia|done].
Qed.



(** An answer that a session returns has a status outside the force list. *)
Lemma session_attempts_returned left forcelist req : ∀ st r st',
  session_attempts left forcelist req st = (Ok r, st') →
  status_code r ∉ forcelist.
Proof.
  induction left as [|left IH]; intros st r st'; simpl; unfold bind, send.
  - destruct (net (sent st) req) as [|r0]; [done|].
    destruct (bool_decide _) eqn:Hfl; [done|].
    apply bool_decide_eq_false in Hfl.
    by destruct (waits_retry_after r0); intros [= <- _].
  - destruct (net (sent st) req) as [|r0]; [apply IH|].
    destruct (bool_decide _) eqn:Hfl; [apply IH|].
    apply bool_decide_eq_false in Hfl.
    destruct (waits_retry_after r0); [apply IH|]. by intros [= <- _].
Qed.




(** ** The user name of an identifier *)

Lemma split_nonempty sep s : split sep s ≠ [].
Proof.
  destruct s as [|c s]; simpl; [done|].
  destruct (c =? sep); [done|]. by destruct (split sep s).
Qed.

Lemma split_snoc_sep sep s : split sep (s ++ [sep]) = split sep s ++ [[]].
Proof.
  induction s as [|c s IH]; simpl.
  - by rewrite N.eqb_refl.
  - rewrite IH. destruct (c =? sep); [done|].
    pose proof (split_nonempty sep s). by destruct (split sep s).
Qed.

Lemma username_of_plain username_or_url :
  startswith username_or_url (py "https://github.com/") = false →
  username_of username_or_url = username_or_url.
Proof. unfold username_of. by intros ->. Qed.

Lemma username_of_trailing_slash username_or_url :
  startswith username_or_url (py "https://github.com/") = true →
  last username_or_url = Some 47 →
  username_of username_or_url = [].
Proof.
  unfold username_of. intros -> Hlast.
  apply last_Some in Hlast as (s & ->).
  rewrite split_snoc_sep. unfold last_item. by rewrite List.last_last.
Qed.

(** C10: once the key check has returned, the lookup sends its profile
    request to the address made of the user name of the identifier; an
    identifier that does not start with [https://github.com/] is that user
    name as it stands, and an identifier that starts with the prefix and
    ends in a slash has the empty user name. *)
Theorem lookup_username username_or_url st st0 headers :
  check_and_switch_key st = (Ok tt, st0) →
  get_headers st0 = (Ok headers, st0) →
  ∃ res st' rest,
    get_user_info_from_github_api username_or_url st = (res, st')
    ∧ sent st' = sent st0
        ++ get_request (profile_url (username_of username_or_url)) headers
           :: rest
    ∧ (startswith username_or_url (py "https://github.com/") = false →
       username_of username_or_url = username_or_url
       ∧ profile_url (username_of username_or_url)
         = py "https://api.github.com/users/" ++ username_or_url)
    ∧ (startswith username_or_url (py "https://github.com/") = true →
       last username_or_url = Some 47 →
       username_of username_or_url = []
       ∧ profile_url (username_of username_or_url)
         = py "https://api.github.com/users/").
Proof.
  intros Hcheck Hhdrs.
  set (username := username_of username_or_url).
  set (req := get_request (profile_url username) headers).
  destruct (count_request st0) as [res1 st1] eqn:Hcount.
  destruct (count_request_sent _ _ _ Hcount) as [-> Hs1].
  destruct (session_get default_retry_session (profile_url username)
              headers st1) as [res2 st2] eqn:Hfetch.
  destruct (session_attempts_log _ _ _ _ _ _ Hfetch) as (_ & n & _ & Hs2).
  fold req in Hs2. rewrite Hs1 in Hs2.
  assert (Hnames :
    (startswith username_or_url (py "https://github.com/") = false →
     username = username_or_url
     ∧ profile_url username
       = py "https://api.github.com/users/" ++ username_or_url)
    ∧ (startswith username_or_url (py "https://github.com/") = true →
       last username_or_url = Some 47 →
       username = []
       ∧ profile_url username = py "https://api.github.com/users/")).
  { split.
    - intros Hp. unfold username. by rewrite (username_of_plain _ Hp).
    - intros Hp Hl. unfold username.
      by rewrite (username_of_trailing_slash _ Hp Hl). }
  unfold get_user_info_from_github_api.
  rewrite (bind_ok _ _ _ _ _ Hcheck), (bind_ok _ _ _ _ _ Hhdrs),
    (bind_ok _ _ _ _ _ Hcount).
  fold username. destruct res2 as [resp|e].
  - rewrite (bind_ok _ _ _ _ _ Hfetch).
    destruct ((if negb (status_code resp =? 200)%Z then ret None
               else
                 let! user_data := response_json resp in
                 if truthy (get_email user_data)
                 then ret (get_email user_data)
                 else get_email_from_readme username headers) st2)
      as [res3 st3] eqn:Hrest.
    assert (Hsends : ∃ new, sent st3 = sent st2 ++ new).
    { assert (Hs : sends (λ _, True)
                (if negb (status_code resp =? 200)%Z then ret None
                 else
                   let! user_data := response_json resp in
                   if truthy (get_email user_data)
                   then ret (get_email user_data)
                   else get_email_from_readme username headers)).
      { destruct (negb _); [apply sends_ret|].
        apply sends_bind; [apply sends_response_json|]. intros user_data.
        destruct (truthy _); [apply sends_ret|].
        eapply sends_mono; [|apply sends_get_email_from_readme]. done. }
      destruct (Hs _ _ _ Hrest) as (new & ? & _). by exists new. }
    destruct Hsends as (new & Hs3).
    exists res3, st3, (replicate n req ++ new).
    split; [done|]. split; [|done].
    rewrite Hs3, Hs2. by rewrite <- app_assoc.
  - rewrite (bind_raise _ _ _ _ _ Hfetch).
    exists (Raise e), st2, (replicate n req). by split.
Qed.

(** ** The record processor *)

Lemma eligible_test record :
  eligible record →
  nonempty (dict_get (record_fields record) (py "GitHub"))
  && str_eqb (dict_get (record_fields record) (py "Status")) (py "Run")
  = true.
Proof.
  intros [Hg Hs]. apply andb_true_iff. split.
  - by destruct (dict_get _ _).
  - unfold str_eqb. by apply bool_decide_eq_true_2.
Qed.

(** C3: a record whose status is not [Run], or whose GitHub field is empty
    or missing, is passed over: nothing is sent, neither a patch nor a
    creation, and the state is the one before the call. *)
Theorem process_record_skips record airtable_api_key base_id
    source_table_name target_table_name st :
  dict_get (record_fields record) (py "Status") ≠ py "Run"
  ∨ dict_get (record_fields record) (py "GitHub") = [] →
  process_record record airtable_api_key base_id source_table_name
    target_table_name st = (Ok tt, st).
Proof.
  intros Hskip. unfold process_record.
  destruct Hskip as [Hs|Hg].
  - unfold str_eqb. rewrite bool_decide_eq_false_2 by done.
    by rewrite andb_false_r.
  - by rewrite Hg.
Qed.





Lemma update_fields_status email :
  update_fields email !! py "Status" = Some (py "Done").
Proof. unfold update_fields. apply lookup_insert_eq. Qed.


Lemma update_fields_dom email k :
  is_Some (update_fields email !! k) →
  k = py "Scouted Email" ∨ k = py "Status".
Proof.
  unfold update_fields. intros [v Hv].
  apply lookup_insert_Some in Hv as [[<- _]|[_ Hv]]; [by right|].
  apply lookup_singleton_Some in Hv as [<- _]. by left.
Qed.




(** * Further properties *)

(** ** The extractor on any text *)

(** Where an address of the pattern's shape stands between word boundaries,
    the extractor finds something. *)
Lemma extract_email_complete text pre m post :
  occurrence tld_class text pre m post → ∃ e, extract_email text = Some e.
Proof.
  intros (Htext & Hshape & Hb1 & Hb2).
  destruct (pattern_longest (last_or None pre) m post) as (m' & Hm' & _);
    [done|by rewrite last_or_None|done|].
  pose proof (findall_from_head pattern text None) as Hhead.
  unfold extract_email, findall.
  destruct (findall_from pattern 0 None text) as [|m0 ms]; [|by eexists].
  rewrite (Hhead pre (m ++ post) Htext) in Hm'. done.
Qed.

(** X1: whatever the text, if an address of the pattern's own shape (bar
    included in the top-level class) stands somewhere between two word
    boundaries, the extractor returns the one that starts first, and of
    those that start there the longest. *)
Theorem extract_email_leftmost_longest text :
  (∃ pre m post, occurrence tld_class text pre m post) →
  ∃ pre0 m0 post0,
    occurrence tld_class text pre0 m0 post0
    ∧ extract_email text = Some m0
    ∧ ∀ pre m post, occurrence tld_class text pre m post →
        (length pre0 ≤ length pre)%nat
        ∧ (length pre = length pre0 → (length m ≤ length m0)%nat).
Proof.
  intros (pre & m & post & Hocc).
  destruct (extract_email_complete _ _ _ _ Hocc) as (e & He).
  assert (Hfound : ∀ pre m post, occurrence tld_class text pre m post →
            ∃ m', match_here pattern (last_or None pre) (m ++ post) = Some m'
                  ∧ (length m ≤ length m')%nat).
  { intros pre1 m1 post1 (_ & Hs & Hd1 & Hd2). rewrite last_or_None.
    by apply pattern_longest. }
  pose proof (findall_from_head pattern text None) as Hhead.
  unfold extract_email, findall in *.
  destruct (findall_from pattern 0 None text) as [|m0 ms]; [done|].
  destruct Hhead as (pre0 & rest0 & Htext0 & Hmatch & Hfirst).
  destruct (pattern_sound _ _ _ Hmatch) as (post0 & -> & Hshape0 & Hbb & Hbe).
  rewrite last_or_None in Hbb.
  exists pre0, m0, post0. split_and!; [done..|by rewrite strip_email_shape|].
  intros pre1 m1 post1 Hocc1.
  destruct (Hfound _ _ _ Hocc1) as (m' & Hm' & Hle).
  destruct Hocc1 as (Htext1 & _).
  assert (Hpos : (length pre0 ≤ length pre1)%nat).
  { destruct (decide (length pre1 < length pre0)%nat) as [Hlt|]; [|lia].
    rewrite (Hfirst pre1 (m1 ++ post1) Htext1 Hlt) in Hm'. done. }
  split; [done|]. intros Hlen.
  rewrite Htext0 in Htext1.
  apply app_inj_1 in Htext1 as [-> Hrest]; [|done].
  rewrite <- Hrest, Hmatch in Hm'. by injection Hm' as <-.
Qed.

(** X2: the extractor returns [None] exactly on the texts in which no address
    of the pattern's shape stands between two word boundaries. *)
Theorem extract_email_none_iff text :
  extract_email text = None
  ↔ ¬ ∃ pre m post, occurrence tld_class text pre m post.
Proof.
  split.
  - intros Hnone (pre & m & post & Hocc).
    destruct (extract_email_complete _ _ _ _ Hocc) as (e & He). congruence.
  - intros Hno. destruct (extract_email text) as [e|] eqn:He; [|done].
    exfalso. apply Hno.
    destruct (extract_email_sound _ _ He) as (pre & post & ? & ? & ? & _).
    by exists pre, e, post.
Qed.

Lemma local_address_char c : local_class c = true → address_char c = true.
Proof. unfold address_char. by intros ->. Qed.

Lemma domain_local c : domain_class c = true → local_class c = true.
Proof.
  unfold domain_class, local_class. intros H.
  repeat (apply orb_true_iff in H as [H|H]);
    rewrite H, ?orb_true_r; done.
Qed.

Lemma tld_address_char c : tld_class c = true → address_char c = true.
Proof.
  unfold tld_class, address_char, local_class, PIPE. intros H.
  repeat (apply orb_true_iff in H as [H|H]);
    rewrite H, ?orb_true_r; done.
Qed.

Lemma count_app c a b : count c (a ++ b) = (count c a + count c b)%nat.
Proof. unfold count. by rewrite List.filter_app, length_app. Qed.

Lemma count_class_zero cls c (s : str) :
  cls c = false → forallb cls s = true → count c s = 0%nat.
Proof.
  intros Hc. unfold count. induction s as [|x s IH]; [done|]. simpl.
  intros Hs. apply andb_true_iff in Hs as [Hx Hs].
  destruct (c =? x) eqn:Hcx; [|by apply IH].
  apply N.eqb_eq in Hcx as ->. congruence.
Qed.

(** X3: a returned address is a piece of the text, at least six characters
    long, made only of letters, digits and [._%+-@|], with exactly one at
    sign: no blank, quote or bracket is in it. *)
Theorem extract_email_characters text e :
  extract_email text = Some e →
  (∃ pre post, text = pre ++ e ++ post)
  ∧ forallb address_char e = true
  ∧ count AT e = 1%nat
  ∧ (6 ≤ length e)%nat.
Proof.
  intros He.
  destruct (extract_email_sound _ _ He)
    as (pre & post & Htext & (l & d & t & -> & Hl & Hlc & Hd & Hdc & Hlen & Ht)
        & _).
  split_and!.
  - by exists pre, post.
  - rewrite forallb_app. simpl. rewrite forallb_app. simpl.
    assert (H1 : forallb address_char l = true).
    { apply forallb_forall. intros c Hc. apply local_address_char.
      by eapply forallb_forall in Hlc. }
    assert (H2 : forallb address_char d = true).
    { apply forallb_forall. intros c Hc. apply local_address_char, domain_local.
      by eapply forallb_forall in Hdc. }
    assert (H3 : forallb address_char t = true).
    { apply forallb_forall. intros c Hc. apply tld_address_char.
      by eapply forallb_forall in Ht. }
    by rewrite H1, H2, H3.
  - change (l ++ AT :: d ++ DOT :: t) with (l ++ [AT] ++ d ++ [DOT] ++ t).
    rewrite !count_app.
    rewrite (count_class_zero local_class AT l) by done.
    rewrite (count_class_zero domain_class AT d) by done.
    rewrite (count_class_zero tld_class AT t) by done.
    reflexivity.
  - rewrite length_app. simpl. rewrite length_app. simpl.
    destruct l; [done|]. destruct d; [done|]. simpl. lia.
Qed.

(** X4: a text without an at sign, without a dot, or shorter than six
    characters (the empty text among them) yields [None]. *)
Theorem extract_email_none_early text :
  AT ∉ text ∨ DOT ∉ text ∨ (length text < 6)%nat →
  extract_email text = None.
Proof.
  intros Hno. destruct (extract_email text) as [e|] eqn:He; [|done].
  exfalso.
  destruct (extract_email_sound _ _ He)
    as (pre & post & -> & (l & d & t & -> & Hl & _ & Hd & _ & Hlen & _) & _).
  destruct Hno as [Hat|[Hdot|Hshort]].
  - apply Hat. apply elem_of_app. right. apply elem_of_app. left.
    apply elem_of_app. right. apply elem_of_cons. by left.
  - apply Hdot. apply elem_of_app. right. apply elem_of_app. left.
    apply elem_of_app. right. apply elem_of_cons. right.
    apply elem_of_app. right. apply elem_of_cons. by left.
  - rewrite !length_app in Hshort. simpl in Hshort.
    rewrite length_app in Hshort. simpl in Hshort.
    destruct l; [done|]. destruct d; [done|]. simpl in Hshort. lia.
Qed.

(** ** Splitting *)

Lemma split_cons sep c s :
  split sep (c :: s)
  = if c =? sep then [] :: split sep s
    else match split sep s with
         | h :: t => (c :: h) :: t
         | [] => [[c]]
         end.
Proof. reflexivity. Qed.

Lemma split_pieces_free sep s : Forall (λ piece, sep ∉ piece) (split sep s).
Proof.
  induction s as [|c s IH].
  - apply Forall_singleton. apply not_elem_of_nil.
  - rewrite split_cons. destruct (c =? sep) eqn:Hc.
    + apply Forall_cons. split; [apply not_elem_of_nil|done].
    + apply N.eqb_neq in Hc.
      destruct (split sep s) as [|h t].
      * apply Forall_singleton. intros Hin.
        apply list_elem_of_singleton in Hin. done.
      * apply Forall_cons in IH as [Hh Ht]. apply Forall_cons. split; [|done].
        intros Hin. apply elem_of_cons in Hin as [->|Hin]; done.
Qed.

Lemma join_split sep s : join sep (split sep s) = s.
Proof.
  induction s as [|c s IH]; [done|].
  rewrite split_cons. pose proof (split_nonempty sep s) as Hne.
  destruct (c =? sep) eqn:Hc.
  - apply N.eqb_eq in Hc as ->. simpl.
    destruct (split sep s) as [|h t]; [done|]. by rewrite IH.
  - destruct (split sep s) as [|h t]; [done|].
    simpl in *. destruct t; by rewrite <- IH.
Qed.

(** X5: [split] loses nothing: joining the pieces with the separator gives
    the string back; no piece contains the separator; and there is one piece
    more than there are separators, so never none. *)
Theorem split_join sep s :
  join sep (split sep s) = s
  ∧ Forall (λ piece, sep ∉ piece) (split sep s)
  ∧ length (split sep s) = S (count sep s).
Proof.
  split_and!; [apply join_split | apply split_pieces_free |].
  - induction s as [|c s IH]; [done|].
    rewrite split_cons. unfold count in *. simpl.
    rewrite (N.eqb_sym sep c).
    pose proof (split_nonempty sep s) as Hne.
    destruct (c =? sep) eqn:Hc.
    + simpl. by rewrite IH.
    + destruct (split sep s) as [|h t]; [done|]. done.
Qed.

Lemma split_free sep s : sep ∉ s → split sep s = [s].
Proof.
  induction s as [|c s IH]; [done|]. intros Hs. rewrite split_cons.
  destruct (c =? sep) eqn:Hc.
  - apply N.eqb_eq in Hc as ->. exfalso. apply Hs. by left.
  - rewrite IH; [done|]. intros Hin. apply Hs. by right.
Qed.

Lemma split_app_sep sep pre s :
  split sep (pre ++ sep :: s) = split sep pre ++ split sep s.
Proof.
  induction pre as [|c pre IH].
  - simpl. by rewrite N.eqb_refl.
  - change ((c :: pre) ++ sep :: s) with (c :: (pre ++ sep :: s)).
    rewrite !split_cons, IH. destruct (c =? sep); [done|].
    pose proof (split_nonempty sep pre). by destruct (split sep pre).
Qed.

(** X6: for an identifier that starts with [https://github.com/], the user
    name is what follows its last slash; so a profile address gives the
    account, and a longer address (a repository, a tab) gives its last
    segment. *)
Theorem username_of_last_segment pre name :
  startswith (pre ++ 47 :: name) (py "https://github.com/") = true →
  47 ∉ name →
  username_of (pre ++ 47 :: name) = name.
Proof.
  intros Hp Hname. unfold username_of. rewrite Hp.
  rewrite split_app_sep, (split_free _ _ Hname).
  unfold last_item. by rewrite List.last_last.
Qed.

(** X7: for an identifier that starts with [https://github.com/], the user
    name has no slash in it. *)
Theorem username_of_no_slash username_or_url :
  startswith username_or_url (py "https://github.com/") = true →
  47 ∉ username_of username_or_url.
Proof.
  intros Hp. unfold username_of. rewrite Hp.
  pose proof (split_pieces_free 47 username_or_url) as Hfree.
  pose proof (split_nonempty 47 username_or_url) as Hne.
  unfold last_item.
  destruct (exists_last Hne) as (l & piece & Hl). rewrite Hl in *.
  rewrite List.last_last.
  rewrite Forall_app, Forall_singleton in Hfree. by destruct Hfree.
Qed.

(** ** The retrying session *)



(** ** The key rotator, further *)

Lemma get_headers_ok st headers st' :
  get_headers st = (Ok headers, st') →
  ∃ key, api_keys (handler st) !! current_key_index (handler st) = Some key
    ∧ headers = {[ py "Authorization" := py "token " ++ key ]}.
Proof.
  unfold get_headers, bind, get_handler.
  destruct (_ !! _) as [key|]; [|done]. intros [= <- _]. by exists key.
Qed.

Lemma get_headers_at st key :
  api_keys (handler st) !! current_key_index (handler st) = Some key →
  get_headers st = (Ok {[ py "Authorization" := py "token " ++ key ]}, st).
Proof.
  unfold get_headers, bind, get_handler. cbv beta iota. by intros ->.
Qed.

Lemma get_headers_out_of_range st :
  (length (api_keys (handler st)) ≤ current_key_index (handler st))%nat →
  get_headers st = (Raise IndexError, st).
Proof.
  intros Hlen. unfold get_headers, bind, get_handler. cbv beta iota.
  destruct (_ !! _) as [key|] eqn:Hkey; [|done].
  apply lookup_lt_Some in Hkey. unfold str in *. lia.
Qed.

(** The state after a rotation. *)
Lemma check_and_switch_key_low st remaining st1 :
  get_remaining_requests st = (Ok remaining, st1) →
  (remaining < 10)%Z →
  api_keys (handler st) ≠ [] →
  check_and_switch_key st
  = (Ok tt,
     {| handler :=
          {| api_keys := api_keys (handler st);
             current_key_index :=
               ((current_key_index (handler st) + 1)
                mod length (api_keys (handler st)))%nat;
             request_count := 0;
             max_requests_per_key := max_requests_per_key (handler st) |};
        sent := sent st1 |}).
Proof.
  intros Hrem Hlt Hkeys.
  pose proof (keeps_get_remaining_requests _ _ _ Hrem) as Hh.
  unfold check_and_switch_key. rewrite (bind_ok _ _ _ _ _ Hrem).
  apply Z.ltb_lt in Hlt. rewrite Hlt.
  destruct st1 as [h1 log1]. simpl in Hh. subst h1.
  unfold bind, get_handler, set_current_key_index, set_request_count.
  cbn [handler sent].
  destruct (length (api_keys (handler st))) as [|n] eqn:Hn; [|done].
  by destruct (api_keys (handler st)).
Qed.

(** X10: a probe whose answer is not a 200 counts as an exhausted key.  When
    the rate-limit request through the session returns an answer with a
    status other than 200 (a status outside the force list, then: on 500,
    502 and 504 the session does not return), the remaining quota is taken
    to be 0 and [check_and_switch_key] rotates: the index moves one position
    on, modulo the number of keys, and the counter is set to 0. *)
Theorem check_and_switch_key_failed_probe st headers resp st1 :
  get_headers st = (Ok headers, st) →
  session_get default_retry_session rate_limit_url headers st
    = (Ok resp, st1) →
  status_code resp ≠ 200%Z →
  (status_code resp ∉ status_forcelist default_retry_session)
  ∧ get_remaining_requests st = (Ok 0%Z, st1)
  ∧ check_and_switch_key st
    = (Ok tt,
       {| handler :=
            {| api_keys := api_keys (handler st);
               current_key_index :=
                 ((current_key_index (handler st) + 1)
                  mod length (api_keys (handler st)))%nat;
               request_count := 0;
               max_requests_per_key := max_requests_per_key (handler st) |};
          sent := sent st1 |}).
Proof.
  intros Hh Hget Hst.
  assert (Hrem : get_remaining_requests st = (Ok 0%Z, st1)).
  { unfold get_remaining_requests.
    rewrite (bind_ok _ _ _ _ _ Hh), (bind_ok _ _ _ _ _ Hget).
    apply Z.eqb_neq in Hst. by rewrite Hst. }
  split; [by apply (session_attempts_returned _ _ _ _ _ _ Hget)|].
  split; [done|]. apply (check_and_switch_key_low _ _ _ Hrem); [lia|].
  destruct (get_headers_ok _ _ _ Hh) as (key & Hkey & _).
  intros Hnil. rewrite Hnil in Hkey. done.
Qed.

(** X11: with 10 or more calls left nothing is rotated: the handler is as it
    was, counter included, and the only requests sent are those of the
    rate-limit query. *)
Theorem check_and_switch_key_keeps st remaining st1 :
  get_remaining_requests st = (Ok remaining, st1) →
  (10 ≤ remaining)%Z →
  check_and_switch_key st = (Ok tt, st1) ∧ handler st1 = handler st.
Proof.
  intros Hrem Hge. split; [|by apply (keeps_get_remaining_requests _ _ _ Hrem)].
  unfold check_and_switch_key. rewrite (bind_ok _ _ _ _ _ Hrem).
  apply Z.ltb_ge in Hge. by rewrite Hge.
Qed.

(** X12: with an index that points at no key (an empty key list among the
    cases) the key check and the lookup raise [IndexError] before anything is
    sent, and leave the state as it was. *)
Theorem lookup_without_key username_or_url st :
  (length (api_keys (handler st)) ≤ current_key_index (handler st))%nat →
  check_and_switch_key st = (Raise IndexError, st)
  ∧ get_user_info_from_github_api username_or_url st
    = (Raise IndexError, st).
Proof.
  intros Hlen. pose proof (get_headers_out_of_range _ Hlen) as Hh.
  assert (Hrem : get_remaining_requests st = (Raise IndexError, st)).
  { unfold get_remaining_requests. by rewrite (bind_raise _ _ _ _ _ Hh). }
  assert (Hcheck : check_and_switch_key st = (Raise IndexError, st)).
  { unfold check_and_switch_key. by rewrite (bind_raise _ _ _ _ _ Hrem). }
  split; [done|]. unfold get_user_info_from_github_api.
  by rewrite (bind_raise _ _ _ _ _ Hcheck).
Qed.

(** X13: when the rate-limit query raises (retries used up, a body that does
    not decode, a body without the remaining count), the lookup raises the
    same exception: no profile request is sent, the handler is not touched
    and the request is not counted. *)
Theorem lookup_probe_raises username_or_url st e st1 :
  get_remaining_requests st = (Raise e, st1) →
  get_user_info_from_github_api username_or_url st = (Raise e, st1)
  ∧ handler st1 = handler st
  ∧ ∃ new, sent st1 = sent st ++ new
      ∧ Forall (λ q, url q = rate_limit_url) new.
Proof.
  intros Hrem.
  assert (Hcheck : check_and_switch_key st = (Raise e, st1)).
  { unfold check_and_switch_key. by rewrite (bind_raise _ _ _ _ _ Hrem). }
  split_and!.
  - unfold get_user_info_from_github_api.
    by rewrite (bind_raise _ _ _ _ _ Hcheck).
  - by apply (keeps_get_remaining_requests _ _ _ Hrem).
  - destruct (sends_get_remaining_requests _ _ _ Hrem) as (new & ? & Hnew).
    exists new. split; [done|]. eapply Forall_impl; [exact Hnew|].
    by intros q [_ ?].
Qed.

(** ** The handler stays in order *)

Lemma safe_ret {A} keys (a : A) : safe keys (ret a).
Proof. by intros st res st' [= <- <-] Hok. Qed.

Lemma safe_raise {A} keys e :
  e ≠ IndexError → e ≠ ZeroDivisionError → safe keys (@raise A e).
Proof.
  intros H1 H2 st res st' [= <- <-] Hok. split_and!; [done|..]; congruence.
Qed.

Lemma safe_bind {A B} keys (c : M A) (k : A → M B) :
  safe keys c → (∀ a, safe keys (k a)) → safe keys (bind c k).
Proof.
  intros Hc Hk st res st'. unfold bind.
  destruct (c st) as [[a|e] st1] eqn:Hcst; intros Hrun Hok.
  - destruct (Hc _ _ _ Hcst Hok) as (Hok1 & _). by apply (Hk _ _ _ _ Hrun).
  - injection Hrun as <- <-.
    destruct (Hc _ _ _ Hcst Hok) as (Hok1 & H1 & H2).
    split_and!; [done|..]; congruence.
Qed.

Lemma safe_requests_request keys req : safe keys (requests_request req).
Proof.
  apply safe_bind; [by intros st res st' [= <- <-] Hok|].
  intros [|r]; [by apply safe_raise|apply safe_ret].
Qed.

Lemma safe_session_attempts keys left forcelist req :
  safe keys (session_attempts left forcelist req).
Proof.
  induction left as [|left IH]; simpl.
  - apply safe_bind; [by intros st res st' [= <- <-] Hok|].
    intros [|r]; [by apply safe_raise|].
    destruct (bool_decide _); [by apply safe_raise|].
    destruct (waits_retry_after r); apply safe_ret.
  - apply safe_bind; [by intros st res st' [= <- <-] Hok|].
    intros [|r]; [apply IH|].
    destruct (bool_decide _); [apply IH|].
    destruct (waits_retry_after r); [apply IH|apply safe_ret].
Qed.

Lemma safe_response_json keys r : safe keys (response_json r).
Proof.
  unfold response_json. destruct (json r); [apply safe_ret|by apply safe_raise].
Qed.

Lemma safe_get_headers keys : safe keys get_headers.
Proof.
  intros st res st' Hrun [Hkeys Hidx].
  pose proof (get_headers_state _ _ _ Hrun) as ->.
  split; [done|]. unfold get_headers, bind, get_handler in Hrun.
  cbv beta iota in Hrun.
  destruct (api_keys (handler st) !! current_key_index (handler st))
    as [key|] eqn:Hkey.
  - injection Hrun as <-. done.
  - apply lookup_ge_None in Hkey. rewrite Hkeys in Hkey.
    unfold str in *. lia.
Qed.

Lemma safe_get_remaining_requests keys : safe keys get_remaining_requests.
Proof.
  apply safe_bind; [apply safe_get_headers|]. intros headers.
  apply safe_bind; [apply safe_session_attempts|]. intros response.
  destruct (_ =? _)%Z; [|apply safe_ret].
  apply safe_bind; [apply safe_response_json|]. intros data.
  destruct (rate_remaining data); [apply safe_ret|by apply safe_raise].
Qed.

Lemma safe_check_and_switch_key keys : safe keys check_and_switch_key.
Proof.
  apply safe_bind; [apply safe_get_remaining_requests|]. intros remaining.
  destruct (_ <? _)%Z; [|apply safe_ret].
  intros st res st' Hrun [Hkeys Hidx].
  unfold bind, get_handler, set_current_key_index, set_request_count in Hrun.
  cbv beta iota in Hrun.
  assert (Hm : ((current_key_index (handler st) + 1)
                mod length (api_keys (handler st)) < length keys)%nat).
  { rewrite Hkeys. apply Nat.mod_upper_bound. unfold str in *. lia. }
  remember ((current_key_index (handler st) + 1)
            mod length (api_keys (handler st)))%nat as m eqn:Hmdef.
  clear Hmdef.
  destruct (length (api_keys (handler st))) as [|n] eqn:Hn.
  - rewrite Hkeys in Hn. unfold str in *. lia.
  - by injection Hrun as <- <-.
Qed.

Lemma safe_count_request keys : safe keys count_request.
Proof. by intros st res st' [= <- <-] Hok. Qed.

Lemma safe_get_email_from_readme keys username headers :
  safe keys (get_email_from_readme username headers).
Proof.
  apply safe_bind; [apply safe_requests_request|]. intros response.
  destruct (_ =? _)%Z; apply safe_ret.
Qed.

Lemma safe_get_user_info keys username_or_url :
  safe keys (get_user_info_from_github_api username_or_url).
Proof.
  apply safe_bind; [apply safe_check_and_switch_key|]. intros _.
  apply safe_bind; [apply safe_get_headers|]. intros headers.
  apply safe_bind; [apply safe_count_request|]. intros _.
  apply safe_bind; [apply safe_session_attempts|]. intros response.
  destruct (negb _); [apply safe_ret|].
  apply safe_bind; [apply safe_response_json|]. intros user_data.
  destruct (truthy _); [apply safe_ret|apply safe_get_email_from_readme].
Qed.

Lemma safe_update_airtable_records keys api_key base_id table_name records :
  safe keys (update_airtable_records api_key base_id table_name records).
Proof.
  apply safe_bind; [apply safe_requests_request|]. intros response.
  destruct (negb _); apply safe_ret.
Qed.

Lemma safe_create_airtable_records keys api_key base_id table_name records :
  safe keys (create_airtable_records api_key base_id table_name records).
Proof.
  apply safe_bind; [apply safe_requests_request|]. intros response.
  destruct (negb _); apply safe_ret.
Qed.

(** X14: the lookup keeps the handler in order.  From a handler whose index
    points at one of its keys, it ends, however it ends, with the same keys
    and an index that points at one of them, and it raises neither
    [IndexError] nor [ZeroDivisionError]. *)
Theorem lookup_keeps_handler_ok keys username_or_url st :
  handler_ok keys (handler st) →
  let ran := get_user_info_from_github_api username_or_url st in
  handler_ok keys (handler (snd ran))
  ∧ fst ran ≠ Raise IndexError ∧ fst ran ≠ Raise ZeroDivisionError.
Proof.
  intros Hok ran. apply (safe_get_user_info keys username_or_url st); [|done].
  apply surjective_pairing.
Qed.

(** X15: so does the processing of a record, whatever the record. *)
Theorem process_record_keeps_handler_ok keys record airtable_api_key base_id
    source_table_name target_table_name st :
  handler_ok keys (handler st) →
  let ran := process_record record airtable_api_key base_id
               source_table_name target_table_name st in
  handler_ok keys (handler (snd ran))
  ∧ fst ran ≠ Raise IndexError ∧ fst ran ≠ Raise ZeroDivisionError.
Proof.
  intros Hok ran.
  assert (Hsafe : safe keys (process_record record airtable_api_key base_id
                               source_table_name target_table_name)).
  { unfold process_record. destruct (_ && _); [|apply safe_ret].
    apply safe_bind; [apply safe_update_airtable_records|]. intros _.
    apply safe_bind; [apply safe_get_user_info|]. intros email.
    apply safe_bind; [apply safe_update_airtable_records|]. intros _.
    destruct (truthy email); [|apply safe_ret].
    apply safe_bind; [apply safe_create_airtable_records|]. intros _.
    apply safe_ret. }
  apply (Hsafe st); [|done]. apply surjective_pairing.
Qed.

(** X16: the handler that [main] makes of the key file is in order whatever
    the file holds: there is at least one key, the index points at the first,
    and nothing of the file is trimmed away, the pieces joined with commas
    being the file again.  Its first headers carry the first piece. *)
Theorem main_handler_ok file_content log :
  handler_ok (split 44 file_content) (main_handler file_content)
  ∧ api_keys (main_handler file_content) ≠ []
  ∧ join 44 (api_keys (main_handler file_content)) = file_content
  ∧ ∃ key rest, api_keys (main_handler file_content) = key :: rest
      ∧ get_headers {| handler := main_handler file_content; sent := log |}
        = (Ok {[ py "Authorization" := py "token " ++ key ]},
           {| handler := main_handler file_content; sent := log |}).
Proof.
  unfold main_handler, new_handler, handler_ok.
  cbn [api_keys current_key_index].
  pose proof (split_nonempty 44 file_content) as Hne.
  split_and!; [done| |done|apply join_split|].
  - destruct (split 44 file_content); [done|simpl; lia].
  - destruct (split 44 file_content) as [|key rest] eqn:Hs; [done|].
    exists key, rest. split; [done|]. by apply get_headers_at.
Qed.

(** ** The lookup, further *)

Lemma bind_returns {A B} (c : M A) (k : A → M B) st b st' :
  bind c k st = (Ok b, st') →
  ∃ a st1, c st = (Ok a, st1) ∧ k a st1 = (Ok b, st').
Proof.
  unfold bind. destruct (c st) as [[a|e] st1]; [|done].
  intros Hk. by exists a, st1.
Qed.

Lemma keeps_get_email_from_readme username headers :
  keeps_handler (get_email_from_readme username headers).
Proof.
  apply keeps_bind; [apply keeps_requests_request|]. intros response.
  destruct (_ =? _)%Z; apply keeps_ret.
Qed.

Lemma keeps_lookup_tail username headers :
  keeps_handler (lookup_tail username headers).
Proof.
  apply keeps_bind; [apply keeps_session_attempts|]. intros response.
  destruct (negb _); [apply keeps_ret|].
  apply keeps_bind; [apply keeps_response_json|]. intros user_data.
  destruct (truthy _); [apply keeps_ret|apply keeps_get_email_from_readme].
Qed.

Lemma lookup_tail_first username headers st res st' :
  lookup_tail username headers st = (res, st') →
  ∃ rest, sent st' = sent st
            ++ get_request (profile_url username) headers :: rest.
Proof.
  unfold lookup_tail, bind at 1.
  destruct (session_get default_retry_session (profile_url username)
              headers st) as [[resp|e] st2] eqn:Hfetch.
  - destruct (session_attempts_log _ _ _ _ _ _ Hfetch) as (_ & n & _ & Hs2).
    intros Hrest.
    assert (Hs : sends (λ _, True)
              (if negb (status_code resp =? 200)%Z then ret None
               else
                 let! user_data := response_json resp in
                 if truthy (get_email user_data)
                 then ret (get_email user_data)
                 else get_email_from_readme username headers)).
    { destruct (negb _); [apply sends_ret|].
      apply sends_bind; [apply sends_response_json|]. intros user_data.
      destruct (truthy _); [apply sends_ret|].
      eapply sends_mono; [|apply sends_get_email_from_readme]. done. }
    destruct (Hs _ _ _ Hrest) as (new & Hs3 & _).
    exists (replicate n (get_request (profile_url username) headers) ++ new).
    rewrite Hs3, Hs2. by rewrite <- app_assoc.
  - destruct (session_attempts_log _ _ _ _ _ _ Hfetch) as (_ & n & _ & Hs2).
    intros [= _ <-]. by eexists.
Qed.

Lemma lookup_after_headers username_or_url st st0 headers :
  check_and_switch_key st = (Ok tt, st0) →
  get_headers st0 = (Ok headers, st0) →
  get_user_info_from_github_api username_or_url st
  = lookup_tail (username_of username_or_url) headers
      {| handler :=
           {| api_keys := api_keys (handler st0);
              current_key_index := current_key_index (handler st0);
              request_count := request_count (handler st0) + 1;
              max_requests_per_key := max_requests_per_key (handler st0) |};
         sent := sent st0 |}.
Proof.
  intros Hcheck Hhdrs. unfold get_user_info_from_github_api.
  rewrite (bind_ok _ _ _ _ _ Hcheck), (bind_ok _ _ _ _ _ Hhdrs).
  reflexivity.
Qed.

(** X17: every lookup that gets as far as its headers is counted once,
    however it ends: the counter is one more than after the key check (so 1
    after a rotation), and keys and index are those the key check left. *)
Theorem lookup_counts_request username_or_url st st0 headers :
  check_and_switch_key st = (Ok tt, st0) →
  get_headers st0 = (Ok headers, st0) →
  let after := handler (snd (get_user_info_from_github_api username_or_url
                               st)) in
  request_count after = (request_count (handler st0) + 1)%nat
  ∧ current_key_index after = current_key_index (handler st0)
  ∧ api_keys after = api_keys (handler st0)
  ∧ max_requests_per_key after = max_requests_per_key (handler st0).
Proof.
  intros Hcheck Hhdrs after. unfold after.
  rewrite (lookup_after_headers username_or_url _ _ _ Hcheck Hhdrs).
  match goal with |- context [lookup_tail ?u ?h ?s] =>
    rewrite (keeps_lookup_tail u h s _ _ (surjective_pairing _))
  end.
  done.
Qed.

(** X18: the lookup never returns the empty string: its result is [None] or
    an address of at least one character, whether it comes from the profile
    or from the README.  So the address stored with [Done] is empty exactly
    when the lookup returned [None]. *)
Theorem lookup_never_empty username_or_url st e st' :
  get_user_info_from_github_api username_or_url st = (Ok (Some e), st') →
  e ≠ [] ∧ truthy (Some e) = true.
Proof.
  intros Hrun. assert (He : e ≠ []); [|split; [done|by destruct e]].
  unfold get_user_info_from_github_api in Hrun.
  apply bind_returns in Hrun as (_ & st0 & _ & Hrun).
  apply bind_returns in Hrun as (headers & st1 & _ & Hrun).
  apply bind_returns in Hrun as (_ & st2 & _ & Hrun).
  apply bind_returns in Hrun as (resp & st3 & _ & Hrun).
  destruct (negb _); [done|].
  apply bind_returns in Hrun as (user_data & st4 & _ & Hrun).
  destruct (truthy (get_email user_data)) eqn:Ht.
  - injection Hrun as Heq _. rewrite Heq in Ht. by destruct e.
  - unfold get_email_from_readme in Hrun.
    apply bind_returns in Hrun as (readme & st5 & _ & Hrun).
    destruct (_ =? _)%Z; [|done]. injection Hrun as Hex _.
    destruct (extract_email_sound _ _ Hex) as (_ & _ & _ & Hshape & _).
    by destruct (email_shape_has_at _ _ Hshape).
Qed.

(** X19: a rotation takes effect at once.  When the rate-limit query reports
    fewer than 10 calls left, the profile request of the same lookup already
    carries the next key, and it is the first request after the query. *)
Theorem lookup_uses_rotated_key username_or_url st remaining st1 key :
  get_remaining_requests st = (Ok remaining, st1) →
  (remaining < 10)%Z →
  api_keys (handler st)
    !! ((current_key_index (handler st) + 1)
        mod length (api_keys (handler st)))%nat = Some key →
  ∃ rest,
    sent (snd (get_user_info_from_github_api username_or_url st))
    = sent st1
      ++ get_request (profile_url (username_of username_or_url))
           {[ py "Authorization" := py "token " ++ key ]}
         :: rest.
Proof.
  intros Hrem Hlt Hkey.
  assert (Hne : api_keys (handler st) ≠ []).
  { intros Hnil. rewrite Hnil in Hkey. done. }
  pose proof (check_and_switch_key_low _ _ _ Hrem Hlt Hne) as Hcheck.
  match type of Hcheck with _ = (_, ?s) => set (st0 := s) in * end.
  assert (Hh : get_headers st0
               = (Ok {[ py "Authorization" := py "token " ++ key ]}, st0)).
  { apply get_headers_at. exact Hkey. }
  rewrite (lookup_after_headers username_or_url _ _ _ Hcheck Hh).
  match goal with |- context [lookup_tail ?u ?h ?s] =>
    destruct (lookup_tail_first u h s _ _ (surjective_pairing _))
      as (rest & Hs)
  end.
  exists rest. exact Hs.
Qed.

(** ** The record processor, further *)

(** X20: when the lookup raises, the processing of the record raises the same
    exception and stops there: the record has been patched to [Running], and
    neither the [Done] update nor a creation is sent. *)
Theorem process_record_lookup_raises record airtable_api_key base_id
    source_table_name target_table_name st ok1 st1 e st2 :
  eligible record →
  update_airtable_records airtable_api_key base_id source_table_name
    [running_update record] st = (Ok ok1, st1) →
  get_user_info_from_github_api
    (dict_get (record_fields record) (py "GitHub")) st1 = (Raise e, st2) →
  process_record record airtable_api_key base_id source_table_name
    target_table_name st = (Raise e, st2)
  ∧ ∃ lookup,
      sent st2
      = sent st
        ++ patch_request airtable_api_key base_id source_table_name
             [running_update record]
           :: lookup
      ∧ Forall (λ q, meth q = GET) lookup.
Proof.
  intros Hel Hup1 Hlookup. split.
  - unfold process_record. rewrite (eligible_test _ Hel).
    rewrite (bind_ok _ _ _ _ _ Hup1). by rewrite (bind_raise _ _ _ _ _ Hlookup).
  - destruct (update_airtable_records_once airtable_api_key base_id
                source_table_name [running_update record] st) as (r1 & Hr1).
    rewrite Hup1 in Hr1. injection Hr1 as _ ->.
    destruct (sends_get_user_info _ _ _ _ Hlookup) as (lookup & Hl & Hgets).
    exists lookup. split; [|done]. rewrite Hl. simpl. by rewrite <- app_assoc.
Qed.

(** X21: when the first patch gets no connection, the processing raises
    [ConnectionError] after that single attempt: no lookup is made and the
    handler is not touched. *)
Theorem process_record_patch_refused record airtable_api_key base_id
    source_table_name target_table_name st :
  eligible record →
  net (sent st)
    (patch_request airtable_api_key base_id source_table_name
       [running_update record]) = Refused →
  process_record record airtable_api_key base_id source_table_name
    target_table_name st
  = (Raise ConnectionError,
     {| handler := handler st;
        sent := sent st
                ++ [patch_request airtable_api_key base_id source_table_name
                      [running_update record]] |}).
Proof.
  intros Hel Hnet. unfold process_record. rewrite (eligible_test _ Hel).
  unfold update_airtable_records at 1, bind.
  by rewrite requests_request_once, Hnet.
Qed.




(** ** Listing the source table *)


End Cloud.

(** ** Concrete runs *)

(** C7 as written fails: [mail@example.com2] contains an address of the
    canonical shape, and the extractor finds nothing in it, because no word
    boundary follows the address. *)
Lemma extract_email_needs_boundary :
  ¬ (∀ (isalnum : N → bool) (text : str),
       contains_email text → returns_first_email isalnum text).
Proof.
  intros H.
  destruct (H ascii_isalnum (py "mail@example.com2"))
    as (pre & m & post & _ & _ & _ & He).
  - exists [], (py "mail@example.com"), (py "2"). split; [done|].
    exists (py "mail"), (py "example"), (py "com").
    repeat split; try done. simpl; lia.
  - by vm_compute in He.
Qed.

(** C8: the README fetch and the three Airtable operations go out through
    plain [requests], not through the retrying session.  On a network whose
    first answer is a 502 and whose second would be a 200, each of them makes
    one attempt and reports the 502 as "nothing": no address, failure, no
    records.  The same fetch through the session of the rate-limit and profile
    calls is tried again and returns the 200. *)
Theorem plain_requests_not_retried :
  let headers : gmap str str := {[ py "Authorization" := py "token key1" ]} in
  let readme := get_request (readme_url (py "octocat")) headers in
  get_email_from_readme ascii_isalnum flaky_net (py "octocat") headers
    fresh_state
  = (Ok None, {| handler := handler fresh_state; sent := [readme] |})
  ∧ (∃ resp,
       session_get flaky_net default_retry_session
         (readme_url (py "octocat")) headers fresh_state
       = (Ok resp, {| handler := handler fresh_state;
                      sent := [readme; readme] |})
       ∧ status_code resp = 200%Z
       ∧ extract_email ascii_isalnum (text resp)
         = Some (py "jane@example.com"))
  ∧ (∃ st', update_airtable_records flaky_net (py "K") (py "B") (py "S")
              [running_update octocat_record] fresh_state = (Ok false, st')
            ∧ length (sent st') = 1%nat)
  ∧ (∃ st', create_airtable_records flaky_net (py "K") (py "B") (py "T")
              [] fresh_state = (Ok false, st')
            ∧ length (sent st') = 1%nat)
  ∧ (∃ st', get_airtable_records flaky_net (py "K") (py "B") (py "S")
              fresh_state = (Ok [], st')
            ∧ length (sent st') = 1%nat).
Proof.
  intros headers readme. split_and!.
  - reflexivity.
  - eexists. split; [reflexivity|]. split; [reflexivity|]. by vm_compute.
  - eexists. split; reflexivity.
  - eexists. split; reflexivity.
  - eexists. split; reflexivity.
Qed.

(** C9 on a README line. *)
Lemma extract_email_nonempty_witness :
  extract_email ascii_isalnum (py "Contact: <jane@example.com>")
  = Some (py "jane@example.com")
  ∧ py "jane@example.com" ≠ [] ∧ AT ∈ py "jane@example.com".
Proof.
  assert (H : extract_email ascii_isalnum (py "Contact: <jane@example.com>")
              = Some (py "jane@example.com")) by (by vm_compute).
  split; [exact H|].
  destruct (extract_email_nonempty ascii_isalnum _ _ H) as (Hne & Hat & _).
  by split.
Defined.

(** C7 on the same line: the address stands between [<] and [>]. *)
Lemma extract_email_first_occurrence_witness :
  ∃ pre0 m0 post0,
    occurrence ascii_isalnum letter (py "Contact: <jane@example.com>")
      pre0 m0 post0
    ∧ extract_email ascii_isalnum (py "Contact: <jane@example.com>")
      = Some m0.
Proof.
  destruct (extract_email_first_occurrence ascii_isalnum
              (py "Contact: <jane@example.com>"))
    as (pre0 & m0 & post0 & Hocc & He & _).
  - apply (bool_decide_unpack _). by vm_compute.
  - exists (py "Contact: <"), (py "jane@example.com"), (py ">").
    split; [reflexivity|]. split.
    + exists (py "jane"), (py "example"), (py "com").
      repeat split; try done. simpl; lia.
    + split; reflexivity.
  - by exists pre0, m0, post0.
Defined.

(** C3 on a record whose status is [Done]. *)
Lemma process_record_skips_witness :
  process_record ascii_isalnum octocat_net done_record
    (py "K") (py "B") (py "S") (py "T") fresh_state
  = (Ok tt, fresh_state).
Proof.
  apply process_record_skips. left. intros H. by vm_compute in H.
Defined.

(** C4 on a handler with two keys and 3 calls left on the first. *)
Lemma check_and_switch_key_rotates_witness :
  ∃ st2, check_and_switch_key octocat_net fresh_state = (Ok tt, st2)
    ∧ current_key_index (handler st2) = 1%nat
    ∧ request_count (handler st2) = 0%nat.
Proof.
  destruct (check_and_switch_key_rotates octocat_net fresh_state 3%Z
              (snd (get_remaining_requests octocat_net fresh_state)))
    as (st2 & Hrun & Hidx & Hcount & _).
  - simpl. lia.
  - by vm_compute.
  - lia.
  - exists st2. by rewrite Hidx.
Defined.

Lemma octocat_record_eligible : eligible octocat_record.
Proof. split; by vm_compute. Qed.





(** C10 on an identifier without the scheme. *)
Lemma lookup_username_witness :
  username_of (py "github.com/octocat") = py "github.com/octocat".
Proof.
  set (st0 := snd (check_and_switch_key octocat_net fresh_state)).
  set (headers := {[ py "Authorization" := py "token key2" ]} : gmap str str).
  destruct (lookup_username ascii_isalnum octocat_net
              (py "github.com/octocat") fresh_state st0 headers)
    as (res & st' & rest & _ & _ & Hplain & _).
  - by vm_compute.
  - by vm_compute.
  - by destruct (Hplain eq_refl).
Defined.

(** ** Concrete runs of the further properties *)

(** X1 on a text whose first address ends in a segment with a bar. *)
Lemma extract_email_leftmost_longest_witness :
  ∃ pre0 m0 post0,
    occurrence ascii_isalnum tld_class (py "a@b.c|d x@y.io") pre0 m0 post0
    ∧ extract_email ascii_isalnum (py "a@b.c|d x@y.io") = Some m0.
Proof.
  destruct (extract_email_leftmost_longest ascii_isalnum
              (py "a@b.c|d x@y.io"))
    as (pre0 & m0 & post0 & Hocc & He & _).
  - exists [], (py "a@b.c|d"), (py " x@y.io").
    split; [reflexivity|]. split.
    + exists (py "a"), (py "b"), (py "c|d").
      repeat split; try done. simpl; lia.
    + split; reflexivity.
  - by exists pre0, m0, post0.
Defined.

(** X3 on a README line. *)
Lemma extract_email_characters_witness :
  count AT (py "jane@example.com") = 1%nat
  ∧ forallb address_char (py "jane@example.com") = true.
Proof.
  destruct (extract_email_characters ascii_isalnum
              (py "Contact: <jane@example.com>") (py "jane@example.com"))
    as (_ & Hchars & Hat & _).
  - by vm_compute.
  - by split.
Defined.

(** X4 on the empty text. *)
Lemma extract_email_none_early_witness :
  extract_email ascii_isalnum [] = None.
Proof.
  apply extract_email_none_early. right. right. simpl. lia.
Defined.

(** X6 on the address of a repository: the user name is the repository. *)
Lemma username_of_last_segment_witness :
  username_of (py "https://github.com/octocat/hello") = py "hello".
Proof.
  apply (username_of_last_segment (py "https://github.com/octocat")
           (py "hello")).
  - reflexivity.
  - apply (bool_decide_unpack _). by vm_compute.
Defined.

(** X7 on a profile address with a trailing slash. *)
Lemma username_of_no_slash_witness :
  47 ∉ username_of (py "https://github.com/octocat/").
Proof. apply username_of_no_slash. reflexivity. Defined.



(** X10 on the network where everything is a 404: the first key is given
    up. *)
Lemma check_and_switch_key_failed_probe_witness :
  current_key_index
    (handler (snd (check_and_switch_key missing_net fresh_state))) = 1%nat.
Proof.
  destruct (check_and_switch_key_failed_probe missing_net fresh_state
              {[ py "Authorization" := py "token key1" ]}
              {| status_code := 404; text := []; json := None;
                 retry_after := false |}
              (snd (session_get missing_net default_retry_session
                      rate_limit_url
                      {[ py "Authorization" := py "token key1" ]}
                      fresh_state)))
    as (_ & _ & Hcheck).
  - by vm_compute.
  - by vm_compute.
  - done.
  - rewrite Hcheck. reflexivity.
Defined.

(** X11 on the network with 4999 calls left. *)
Lemma check_and_switch_key_keeps_witness :
  handler (snd (check_and_switch_key healthy_net fresh_state))
  = handler fresh_state.
Proof.
  destruct (check_and_switch_key_keeps healthy_net fresh_state 4999%Z
              (snd (get_remaining_requests healthy_net fresh_state)))
    as (Hcheck & Hh).
  - by vm_compute.
  - lia.
  - rewrite Hcheck. exact Hh.
Defined.

(** X12 on a handler without keys. *)
Lemma lookup_without_key_witness :
  get_user_info_from_github_api ascii_isalnum octocat_net (py "octocat")
    keyless_state
  = (Raise IndexError, keyless_state).
Proof.
  apply (lookup_without_key ascii_isalnum octocat_net (py "octocat")
           keyless_state).
  simpl. lia.
Defined.

(** X13 on the network that never answers. *)
Lemma lookup_probe_raises_witness :
  fst (get_user_info_from_github_api ascii_isalnum dead_net (py "octocat")
         fresh_state)
  = Raise ConnectionError.
Proof.
  destruct (lookup_probe_raises ascii_isalnum dead_net (py "octocat")
              fresh_state ConnectionError
              (snd (get_remaining_requests dead_net fresh_state)))
    as (Hrun & _).
  - by vm_compute.
  - by rewrite Hrun.
Defined.

Lemma fresh_state_ok :
  handler_ok [py "key1"; py "key2"] (handler fresh_state).
Proof. split; [reflexivity|simpl; lia]. Qed.

(** X14 on the two-key handler. *)
Lemma lookup_keeps_handler_ok_witness :
  handler_ok [py "key1"; py "key2"]
    (handler (snd (get_user_info_from_github_api ascii_isalnum octocat_net
                     (py "octocat") fresh_state))).
Proof.
  apply (lookup_keeps_handler_ok ascii_isalnum octocat_net
           [py "key1"; py "key2"] (py "octocat") fresh_state).
  exact fresh_state_ok.
Defined.

(** X15 on the record of the octocat. *)
Lemma process_record_keeps_handler_ok_witness :
  handler_ok [py "key1"; py "key2"]
    (handler (snd (process_record ascii_isalnum octocat_net octocat_record
                     (py "K") (py "B") (py "S") (py "T") fresh_state))).
Proof.
  apply (process_record_keeps_handler_ok ascii_isalnum octocat_net
           [py "key1"; py "key2"] octocat_record (py "K") (py "B") (py "S")
           (py "T") fresh_state).
  exact fresh_state_ok.
Defined.

(** X17 after a rotation: the counter stands at 1. *)
Lemma lookup_counts_request_witness :
  request_count
    (handler (snd (get_user_info_from_github_api ascii_isalnum octocat_net
                     (py "octocat") fresh_state))) = 1%nat.
Proof.
  destruct (lookup_counts_request ascii_isalnum octocat_net (py "octocat")
              fresh_state
              (snd (check_and_switch_key octocat_net fresh_state))
              {[ py "Authorization" := py "token key2" ]})
    as (Hcount & _).
  - by vm_compute.
  - by vm_compute.
  - rewrite Hcount. reflexivity.
Defined.

(** X18 on the profile of the octocat. *)
Lemma lookup_never_empty_witness : py "x@y.com" ≠ [].
Proof.
  destruct (lookup_never_empty ascii_isalnum octocat_net (py "octocat")
              fresh_state (py "x@y.com")
              (snd (get_user_info_from_github_api ascii_isalnum octocat_net
                      (py "octocat") fresh_state)))
    as (Hne & _).
  - by vm_compute.
  - exact Hne.
Defined.

(** X19 with 3 calls left on the first key: the profile request carries the
    second. *)
Lemma lookup_uses_rotated_key_witness :
  ∃ rest,
    sent (snd (get_user_info_from_github_api ascii_isalnum octocat_net
                 (py "octocat") fresh_state))
    = sent (snd (get_remaining_requests octocat_net fresh_state))
      ++ get_request (profile_url (username_of (py "octocat")))
           {[ py "Authorization" := py "token key2" ]}
         :: rest.
Proof.
  apply (lookup_uses_rotated_key ascii_isalnum octocat_net (py "octocat")
           fresh_state 3%Z
           (snd (get_remaining_requests octocat_net fresh_state))
           (py "key2")).
  - by vm_compute.
  - lia.
  - reflexivity.
Defined.

(** X20 on a handler without keys: the record is left at [Running]. *)
Lemma process_record_lookup_raises_witness :
  fst (process_record ascii_isalnum octocat_net octocat_record
         (py "K") (py "B") (py "S") (py "T") keyless_state)
  = Raise IndexError.
Proof.
  set (st1 := snd (update_airtable_records octocat_net (py "K") (py "B")
                     (py "S") [running_update octocat_record]
                     keyless_state)).
  destruct (process_record_lookup_raises ascii_isalnum octocat_net
              octocat_record (py "K") (py "B") (py "S") (py "T")
              keyless_state true st1 IndexError st1)
    as (Hrun & _).
  - exact octocat_record_eligible.
  - by vm_compute.
  - by vm_compute.
  - by rewrite Hrun.
Defined.

(** X21 on the network that never answers. *)
Lemma process_record_patch_refused_witness :
  fst (process_record ascii_isalnum dead_net octocat_record
         (py "K") (py "B") (py "S") (py "T") fresh_state)
  = Raise ConnectionError.
Proof.
  rewrite (process_record_patch_refused ascii_isalnum dead_net
             octocat_record (py "K") (py "B") (py "S") (py "T") fresh_state).
  - reflexivity.
  - exact octocat_record_eligible.
  - reflexivity.
Defined.

